(** * Dijkstra over a dense cost matrix: a shallow embedding of
    [src/src/dijkstra.cxx] and the properties of its specification.

    The C++ class [Dijkstra<T>] stores a matrix and its row count; its
    method [from_vertex] runs the array-based single-source shortest-path
    loop, calling the private method [min_distance] in each round.

    The embedding follows the code statement by statement:
    - the element type [T] is a parameter with the operations the code
      applies to it ([Numeric]); it is instantiated with IEEE binary32
      ([float], built on the Standard Library's [SpecFloat]) as [main]
      does;
    - a method is a computation in a state-and-error monad over the
      object's fields; a call either returns, or reaches an operation
      whose behaviour C++ leaves undefined (an access [v[i]] outside a
      vector, the read of an unset local), where the model stops; the
      outcome type also has the raised conditions the specification
      names, which the code never produces;
    - [std::vector] is a list, read with [!!] and written with [<[i:=x]>]
      only through the checked accessors [vec_get], [vec_set] and
      [graph_at];
    - the field [size] is an [int] holding a row count, modelled as [nat];
      the argument [source] is any [int], modelled as [Z]. *)

From Stdlib Require Import ZArith Lia Bool.
From Stdlib Require Import SpecFloat.
From stdpp Require Import base list.

(** * Part I: the program *)

(** ** Outcomes of a call *)

(** The two kinds of undefined behaviour the code can reach. *)
Inductive fault : Set :=
| OutOfBounds      (* operator[] applied outside the vector *)
| Uninitialised.   (* read of a local that was never assigned *)

(** The error conditions of the specification (section 7). *)
Inductive condition : Set :=
| InvalidGraph
| OutOfRange.

(** [Undefined f] says that the call executes an operation of kind [f]:
    from there on the language puts no requirement on the program, and
    the model follows it no further.  What a compiled program does
    afterwards, crash or go on with some value, is outside the model. *)
Inductive outcome (A : Type) : Type :=
| Ret (a : A)
| Raise (c : condition)
| Undefined (f : fault).
Arguments Ret {A} a.
Arguments Raise {A} c.
Arguments Undefined {A} f.

(** ** The element type *)

(** What the code does with values of type [T]: the literal [0], the
    conversion of [numeric_limits<float>::infinity()], [+], [<], [<=] and
    [==].  The test [x != y] is [negb (num_eq x y)], and a value used as a
    condition ([graph[u][v] && ...]) is the test [x != 0]. *)
Class Numeric (T : Type) : Type := {
  num_zero : T;
  num_inf : T;
  num_add : T -> T -> T;
  num_lt : T -> T -> bool;
  num_le : T -> T -> bool;
  num_eq : T -> T -> bool
}.

Definition num_ne `{Numeric T} (x y : T) : bool := negb (num_eq x y).
Definition truthy `{Numeric T} (x : T) : bool := num_ne x num_zero.

(** ** The object and its methods *)

(** [template<typename T> using Matrix = vector<vector<T>>]. *)
Abbreviation Matrix T := (list (list T)) (only parsing).

Record Dijkstra (T : Type) : Type := mkDijkstra {
  size : nat;
  graph : Matrix T
}.
Arguments mkDijkstra {T} size graph.
Arguments size {T} d.
Arguments graph {T} d.

(** The constructor: [graph = g; size = g.size();].  It has no failing
    path. *)
Definition Dijkstra_new {T : Type} (g : Matrix T) : outcome (Dijkstra T) :=
  Ret (mkDijkstra (length g) g).

(** A method body: reads and writes the fields of [this], and returns,
    raises or faults. *)
Definition M (T A : Type) : Type := Dijkstra T -> outcome (A * Dijkstra T).

Definition ret {T A : Type} (a : A) : M T A := fun this => Ret (a, this).

Definition bind {T A B : Type} (m : M T A) (k : A -> M T B) : M T B :=
  fun this =>
    match m this with
    | Ret (a, this') => k a this'
    | Raise c => Raise c
    | Undefined f => Undefined f
    end.

Definition undefined {T A : Type} (f : fault) : M T A := fun _ => Undefined f.

Notation "'let*' x := m 'in' k" := (bind m (fun x => k))
  (at level 10, x name, m at level 100, k at level 200).
Notation "'let*' ' pat := m 'in' k" :=
  (bind m (fun x => match x with pat => k end))
  (at level 10, pat pattern, m at level 100, k at level 200).

(** [for (int i = 0; i < n; i++) body]: the loop variable runs from [i]
    upwards for [n] rounds, the locals the body assigns are the state. *)
Fixpoint for_loop {T St : Type} (n i : nat) (body : nat -> St -> M T St)
  (s : St) : M T St :=
  match n with
  | O => ret s
  | S n' => let* s' := body i s in for_loop n' (S i) body s'
  end.

(** [v[i]] as a read. *)
Definition vec_get {T A : Type} (v : list A) (i : nat) : M T A :=
  match v !! i with
  | Some x => ret x
  | None => undefined OutOfBounds
  end.

(** [v[i] = x]. *)
Definition vec_set {T A : Type} (v : list A) (i : nat) (x : A) : M T (list A) :=
  if decide (i < length v) then ret (<[i:=x]> v) else undefined OutOfBounds.

(** [v[i] = x] for an [int] index: a negative [i] converts to an index
    beyond every vector. *)
Definition vec_set_int {T A : Type} (v : list A) (i : Z) (x : A) : M T (list A) :=
  if decide (0 <= i)%Z then vec_set v (Z.to_nat i) x else undefined OutOfBounds.

Section Methods.
Context {T : Type} `{Numeric T}.

Definition get_size : M T nat := fun this => Ret (size this, this).

(** [graph[u][v]]. *)
Definition graph_at (u v : nat) : M T T :=
  fun this =>
    match graph this !! u with
    | Some row =>
        match row !! v with
        | Some w => Ret (w, this)
        | None => Undefined OutOfBounds
        end
    | None => Undefined OutOfBounds
    end.

(** [min_distance]: the locals are [min] and [min_index].  [min] is
    declared [float], the element type of the one instantiation
    [Dijkstra<float>]; [min_index] is declared without a value, which is
    [None] here, and returning it unset is a fault. *)
Definition min_distance (dist : list T) (is_processed : list bool) : M T nat :=
  let* n := get_size in
  let* '(_, min_index) :=
    for_loop n 0 (fun v '(min, min_index) =>
      let* p := vec_get is_processed v in
      if negb p then
        let* d := vec_get dist v in
        if num_le d min then ret (d, Some v) else ret (min, min_index)
      else ret (min, min_index))
      (num_inf, None) in
  match min_index with
  | Some u => ret u
  | None => undefined Uninitialised
  end.

(** The innermost loop of [from_vertex]: relaxation of every [v] from
    [u].  The conjuncts of the condition are evaluated left to right and
    only as far as needed. *)
Definition relax (u : nat) (is_processed : list bool) (dist : list T)
  : M T (list T) :=
  let* n := get_size in
  for_loop n 0 (fun v dist =>
    let* p := vec_get is_processed v in
    if negb p then
      let* w := graph_at u v in
      if truthy w then
        let* du := vec_get dist u in
        if num_ne du num_inf then
          let* dv := vec_get dist v in
          if num_lt (num_add du w) dv then vec_set dist v (num_add du w)
          else ret dist
        else ret dist
      else ret dist
    else ret dist) dist.

(** One round of the main loop. *)
Definition round (st : list T * list bool) : M T (list T * list bool) :=
  let '(dist, is_processed) := st in
  let* u := min_distance dist is_processed in
  let* is_processed := vec_set is_processed u true in
  let* dist := relax u is_processed dist in
  ret (dist, is_processed).

(** The first loop: [size] times [push_back]. *)
Definition initial : M T (list T * list bool) :=
  let* n := get_size in
  for_loop n 0 (fun _ '(dist, is_processed) =>
    ret (dist ++ [num_inf], is_processed ++ [false])) ([], []).

(** The state of [from_vertex] after [k] rounds of the main loop. *)
Definition rounds (source : Z) (k : nat) : M T (list T * list bool) :=
  let* '(dist, is_processed) := initial in
  let* dist := vec_set_int dist source num_zero in
  for_loop k 0 (fun _ st => round st) (dist, is_processed).

(** [from_vertex]: [count] runs while [count < size - 1]; for
    [size = 0] the bound is [-1] and the loop does not run, as with the
    truncated subtraction here. *)
Definition from_vertex (source : Z) : M T (list T) :=
  let* n := get_size in
  let* '(dist, _) := rounds source (n - 1) in
  ret dist.

End Methods.

(** A call on a freshly constructed object, as [main] makes it. *)
Definition run_from_vertex {T : Type} `{Numeric T} (g : Matrix T) (source : Z)
  : outcome (list T) :=
  match Dijkstra_new g with
  | Ret this =>
      match from_vertex source this with
      | Ret (dist, _) => Ret dist
      | Raise c => Raise c
      | Undefined f => Undefined f
      end
  | Raise c => Raise c
  | Undefined f => Undefined f
  end.

(** ** The driver *)

Section Driver.
Context {T : Type} `{Numeric T}.

(** The first loop of [main]: one call of [from_vertex] for each row
    index of the matrix, the results appended to [output]. *)
Definition all_sources (n : nat) : M T (Matrix T) :=
  for_loop n 0 (fun i output =>
    let* result := from_vertex (Z.of_nat i) in
    ret (output ++ [result])) [].

(** The two nested loops of [main] that print [output]: one line for
    each [i] and [j], which shows [j] and [output[i][j]].  A line is kept
    as the pair of the two values it shows; the header line and the
    layout of a number as text are left out. *)
Definition print_table (n : nat) (output : Matrix T) : M T (list (nat * T)) :=
  for_loop n 0 (fun i lines =>
    for_loop n 0 (fun j lines =>
      let* row := vec_get output i in
      let* d := vec_get row j in
      ret (lines ++ [(j, d)])) lines) [].

(** [main] for the matrix [graph]: it constructs the object, fills
    [output] and prints it.  The bound of its loops is [graph.size()]. *)
Definition driver (graph : Matrix T) : outcome (Matrix T * list (nat * T)) :=
  match Dijkstra_new graph with
  | Ret dijkstra =>
      match (let* output := all_sources (length graph) in
             let* lines := print_table (length graph) output in
             ret (output, lines)) dijkstra with
      | Ret (r, _) => Ret r
      | Raise c => Raise c
      | Undefined f => Undefined f
      end
  | Raise c => Raise c
  | Undefined f => Undefined f
  end.

End Driver.

(** ** IEEE binary32, the instance of [main] *)

(** [float] with the operations of [SpecFloat] at precision 24 and
    maximal exponent 128. *)
Definition float : Type := spec_float.
Definition prec32 : Z := 24.
Definition emax32 : Z := 128.

(** The binary32 value of an integer literal such as [4.0] or [-2.0]. *)
Definition float_of_Z (z : Z) : float :=
  binary_normalize prec32 emax32 z 0 false.

#[export] Instance float_Numeric : Numeric float := {|
  num_zero := S754_zero false;
  num_inf := S754_infinity false;
  num_add := SFadd prec32 emax32;
  num_lt := SFltb;
  num_le := SFleb;
  num_eq := SFeqb
|}.

(** The matrix of [main]. *)
Definition main_graph : Matrix float :=
  let inf := S754_infinity false in
  let f := float_of_Z in
  [ [f 0; inf; f (-2); inf];
    [f 4; f 0; f 3; inf];
    [inf; inf; f 0; f 2];
    [inf; f (-1); inf; f 0] ]%Z.

(** [main]. *)
Definition main : outcome (Matrix float * list (nat * float)) :=
  driver main_graph.

(** * Part II: the vocabulary of the specification *)

(** ** Laws of the element type *)

(** The order laws the proofs use.  A value [x] is *ordered* when
    [num_le x x] holds; for IEEE numbers this excludes exactly NaN. *)
Class OrderLaws (T : Type) `{Numeric T} : Prop := {
  le_zero_inf : num_le num_zero num_inf = true;
  le_inf_zero : num_le num_inf num_zero = false;
  le_ordered_l : forall x y, num_le x y = true -> num_le x x = true;
  le_ordered_r : forall x y, num_le x y = true -> num_le y y = true;
  le_top : forall x, num_le x x = true -> num_le x num_inf = true;
  le_trans : forall x y z,
    num_le x y = true -> num_le y z = true -> num_le x z = true;
  le_total : forall x y,
    num_le x x = true -> num_le y y = true ->
    num_le x y = true \/ num_le y x = true;
  lt_ordered : forall x y, num_lt x y = true -> num_le x x = true;
  lt_not_le : forall x y,
    num_le x x = true -> num_le y y = true ->
    num_lt x y = negb (num_le y x);
  eq_le : forall x y, num_eq x y = true -> num_le y x = true;
  eq_inf : num_eq num_inf num_inf = true;
  inf_greatest : forall x, num_le num_inf x = true -> x = num_inf
}.

(** The laws of addition the shortest-path argument uses.  Rounded sums
    have them on the values [nn] singles out, not on all of [T]: for
    binary32 [nn] is [nonneg] below, the values that are no NaN and not
    less than zero. *)
Class NonnegLaws (T : Type) `{Numeric T} (nn : T -> bool) : Prop := {
  nn_zero : nn num_zero = true;
  nn_inf : nn num_inf = true;
  nn_le : forall x, nn x = true -> num_le num_zero x = true;
  nn_add : forall x w,
    nn x = true -> nn w = true -> nn (num_add x w) = true;
  add_increasing : forall x w,
    nn x = true -> nn w = true -> num_le x (num_add x w) = true;
  add_monotone : forall x y w,
    nn x = true -> nn y = true -> nn w = true ->
    num_le x y = true ->
    num_le (num_add x w) (num_add y w) = true
}.

Section Vocabulary.
Context {T : Type} `{Numeric T}.
Implicit Types (dist : list T) (proc : list bool) (this : Dijkstra T).

(** ** Calls that return *)

(** [m] returns from the state [this], leaves it as it is, and the value
    it returns satisfies [Q]. *)
Definition returns {A : Type} (m : M T A) (this : Dijkstra T)
  (Q : A -> Prop) : Prop :=
  exists a, m this = Ret (a, this) /\ Q a.

(** Whenever [m] returns, the fields of [this] are as before the call. *)
Definition readonly {A : Type} (m : M T A) : Prop :=
  forall this a this', m this = Ret (a, this') -> this' = this.

(** [m] never ends in one of the conditions of the specification. *)
Definition never_raises {A : Type} (m : M T A) : Prop :=
  forall this c, m this <> Raise c.

(** ** Matrices, paths and the processed set *)

(** Row count equals each row's length. *)
Definition square_matrix (g : Matrix T) : Prop :=
  Forall (fun row => length row = length g) g.

(** The object the constructor builds from [g]. *)
Definition engine (g : Matrix T) : Dijkstra T := mkDijkstra (length g) g.

(** A well-formed object: [size] is the row count of a square matrix. *)
Definition square (this : Dijkstra T) : Prop :=
  length (graph this) = size this /\
  Forall (fun row => length row = size this) (graph this).

(** The matrix entry at [(u, v)], when there is one. *)
Definition entry (this : Dijkstra T) (u v : nat) : option T :=
  match graph this !! u with
  | Some row => row !! v
  | None => None
  end.

(** Every entry is one of the values [nn]. *)
Definition weights_in (nn : T -> bool) (this : Dijkstra T) : Prop :=
  forall u v w, entry this u v = Some w -> nn w = true.

(** Following the vertices [p] from [u] with the cost [acc] so far: each
    step takes an entry that is nonzero as a condition, and adds it. *)
Fixpoint path_cost (this : Dijkstra T) (u : nat) (p : list nat) (acc : T)
  : option T :=
  match p with
  | [] => Some acc
  | v :: p' =>
      match entry this u v with
      | Some w =>
          if truthy w then path_cost this v p' (num_add acc w) else None
      | None => None
      end
  end.

Fixpoint path_end (u : nat) (p : list nat) : nat :=
  match p with
  | [] => u
  | v :: p' => path_end v p'
  end.

(** [s :: p] is a path from [s] to [v] over nonzero entries, and [c] is
    the sum of its weights. *)
Definition path (this : Dijkstra T) (s : nat) (p : list nat) (v : nat)
  (c : T) : Prop :=
  s < size this /\ path_end s p = v /\ path_cost this s p num_zero = Some c.

(** The same, built edge by edge from the source. *)
Inductive walk (this : Dijkstra T) (s : nat) : nat -> T -> Prop :=
| walk_start : s < size this -> walk this s s num_zero
| walk_edge u v c w :
    walk this s u c ->
    entry this u v = Some w ->
    truthy w = true ->
    walk this s v (num_add c w).

(** The number of vertices marked processed. *)
Fixpoint count_true (l : list bool) : nat :=
  match l with
  | [] => 0
  | b :: l' => (if b then 1 else 0) + count_true l'
  end.

(** The value the relaxation loop leaves at a vertex whose flag is [pv],
    whose entry from [u] is [w] and whose distance was [dv]. *)
Definition relaxed (du w dv : T) (pv : bool) : T :=
  if negb pv && truthy w && num_ne du num_inf && num_lt (num_add du w) dv
  then num_add du w else dv.

(** ** The loops of the two methods *)

(** No entry of the vector is unordered (a NaN). *)
Definition ordered dist : Prop :=
  forall v d, dist !! v = Some d -> num_le d d = true.

(** What [min_distance] selects: an unprocessed vertex whose distance
    is least among the unprocessed ones, and the last such vertex. *)
Definition selects dist proc (u : nat) : Prop :=
  proc !! u = Some false /\
  exists du, dist !! u = Some du /\
    forall v dv, proc !! v = Some false -> dist !! v = Some dv ->
      num_le du dv = true /\ (num_le dv du = true -> v <= u).

(** The selection rule in the words of the specification: scan the
    vertices below [n] in index order, and update the best so far
    whenever an unprocessed candidate is less than or equal to it. *)
Definition scan_update dist proc (best : T * option nat) (v : nat)
  : T * option nat :=
  match proc !! v, dist !! v with
  | Some false, Some d => if num_le d (fst best) then (d, Some v) else best
  | _, _ => best
  end.

Definition scan_best dist proc (n : nat) : T * option nat :=
  fold_left (scan_update dist proc) (seq 0 n) (num_inf, None).

(** The locals of [min_distance] when the scan is at [j]. *)
Definition scan_inv dist proc (j : nat) (st : T * option nat) : Prop :=
  match st with
  | (min, None) =>
      min = num_inf /\ forall v, v < j -> proc !! v = Some true
  | (min, Some u) =>
      u < j /\ proc !! u = Some false /\ dist !! u = Some min /\
      forall v dv, v < j -> proc !! v = Some false -> dist !! v = Some dv ->
        num_le min dv = true /\ (num_le dv min = true -> v <= u)
  end.

(** The vector of the relaxation loop when it is at [j]: the entries
    below [j] are relaxed, the others are as at the start. *)
Definition relax_inv this (u : nat) (du : T) proc dist (j : nat)
  (d : list T) : Prop :=
  length d = size this /\ d !! u = Some du /\
  forall v pv w dv,
    proc !! v = Some pv -> entry this u v = Some w -> dist !! v = Some dv ->
    d !! v = Some (if decide (v < j) then relaxed du w dv pv else dv).

(** What one round of the main loop does to the two vectors. *)
Definition round_post this dist proc (st' : list T * list bool) : Prop :=
  exists u du,
    selects dist proc u /\ dist !! u = Some du /\
    snd st' = <[u:=true]> proc /\
    relax_inv this u du (<[u:=true]> proc) dist (size this) (fst st').

(** ** The invariants of the main loop *)

(** After [j] rounds from the source [s]: [j] vertices are processed;
    no distance is unordered; the source has distance [0], is the first
    vertex processed, and before that every other distance is infinite;
    every distance is infinite or the cost of a walk from the source. *)
Definition basic_inv this (s j : nat) (st : list T * list bool) : Prop :=
  let '(dist, proc) := st in
  length dist = size this /\ length proc = size this /\
  count_true proc = j /\
  ordered dist /\
  dist !! s = Some num_zero /\
  (0 < j -> proc !! s = Some true) /\
  (j = 0 -> forall v d, v <> s -> dist !! v = Some d -> d = num_inf) /\
  (forall v d, dist !! v = Some d -> d = num_inf \/ walk this s v d).

(** What the rounds maintain when every weight is one of the values
    [nn]: so is every distance; the distance of a processed vertex is at
    most the cost of every walk to it; every edge from a processed vertex
    to an unprocessed one has been relaxed. *)
Definition sp_inv (nn : T -> bool) this (s : nat)
  (st : list T * list bool) : Prop :=
  let '(dist, proc) := st in
  (forall v d, dist !! v = Some d -> nn d = true) /\
  (forall u d c,
     proc !! u = Some true -> dist !! u = Some d -> walk this s u c ->
     num_le d c = true) /\
  (forall u v du dv w,
     proc !! u = Some true -> proc !! v = Some false ->
     entry this u v = Some w -> truthy w = true ->
     dist !! u = Some du -> dist !! v = Some dv ->
     num_le dv (num_add du w) = true).

End Vocabulary.

(** ** The order of binary32 *)

(** A non-NaN number as a key in lexicographic order: class, then
    exponent, then mantissa, the last two negated below zero. *)
Definition float_key (x : float) : option (Z * Z * Z) :=
  match x with
  | S754_nan => None
  | S754_infinity true => Some (-2, 0, 0)%Z
  | S754_infinity false => Some (2, 0, 0)%Z
  | S754_zero _ => Some (0, 0, 0)%Z
  | S754_finite true m e => Some (-1, - e, - Z.pos m)%Z
  | S754_finite false m e => Some (1, e, Z.pos m)%Z
  end.

Definition key_le (k k' : Z * Z * Z) : Prop :=
  let '(a, b, c) := k in
  let '(a', b', c') := k' in
  (a < a' \/ (a = a' /\ (b < b' \/ (b = b' /\ c <= c'))))%Z.

Definition key_lt (k k' : Z * Z * Z) : Prop :=
  let '(a, b, c) := k in
  let '(a', b', c') := k' in
  (a < a' \/ (a = a' /\ (b < b' \/ (b = b' /\ c < c'))))%Z.

(** ** The values of binary32 *)

(** A binary32 number that is no NaN and not less than zero.  The first
    test is the one every datum of type [float] passes: mantissa and
    exponent are in range and normalised. *)
Definition nonneg (x : float) : bool :=
  valid_binary prec32 emax32 x && SFleb (S754_zero false) x.

Definition nonneg_matrix (g : Matrix float) : bool :=
  forallb (forallb nonneg) g.

(** The value of such a number in units of [2 ^ -149], the least positive
    number; infinity counts as [2 ^ 128], the first power of two beyond
    the finite numbers. *)
Definition uval (x : float) : Z :=
  match x with
  | S754_zero _ => 0
  | S754_finite _ m e => Z.pos m * 2 ^ (e + 149)
  | S754_infinity _ => 2 ^ 277
  | S754_nan => 0
  end%Z.

(** Rounding [M / 2 ^ k] to the nearest integer, ties to even. *)
Definition rnd_up (M k : Z) : bool :=
  ((2 ^ k <? 2 * (M mod 2 ^ k)) ||
   ((2 ^ k =? 2 * (M mod 2 ^ k)) && Z.odd (M / 2 ^ k)))%Z.

Definition rnd_q (M k : Z) : Z := (M / 2 ^ k + Z.b2z (rnd_up M k))%Z.

(** Rounding a non-negative number of units to 24 significant bits: a
    number of [d] binary digits is rounded to a multiple of
    [2 ^ (d - 24)]. *)
Definition grid (a : Z) : Z := Z.max (Zdigits2 a - 24) 0.
Definition RNE (a : Z) : Z := (rnd_q a (grid a) * 2 ^ grid a)%Z.

(** The last step of [binary_round_aux]. *)
Definition pack (m e : Z) : float :=
  match m with
  | Z0 => S754_zero false
  | Zpos p =>
      if (e <=? emax32 - prec32)%Z then S754_finite false p e
      else S754_infinity false
  | Zneg _ => S754_nan
  end.

(** The weights along [p] from [u] summed without rounding, in units. *)
Fixpoint exact_cost (this : Dijkstra float) (u : nat) (p : list nat)
  (acc : Z) : option Z :=
  match p with
  | [] => Some acc
  | v :: p' =>
      match entry this u v with
      | Some w =>
          if truthy w then exact_cost this v p' (acc + uval w)%Z else None
      | None => None
      end
  end.

(** ** Concrete matrices *)

(** A 3x3 matrix: the direct edge from 0 to 1 costs 4, the way through 2
    costs 3. *)
Definition detour_graph : Matrix float :=
  let f := float_of_Z in
  [ [f 0; f 4; f 1];
    [f 0; f 0; f 0];
    [f 0; f 2; f 0] ]%Z.

(** A 2x2 binary32 matrix whose vertex 1 has only a zero entry from 0. *)
Definition zero_graph : Matrix float :=
  [ [float_of_Z 0; float_of_Z 0];
    [float_of_Z 1; float_of_Z 0] ].

(** A matrix in which the vertices 1 and 2 tie after the first round. *)
Definition tie_graph : Matrix float :=
  let f := float_of_Z in
  [ [f 0; f 1; f 1];
    [f 0; f 0; f 0];
    [f 0; f 0; f 0] ]%Z.

(** A matrix whose only path from 0 to 2 has the weights [2 ^ 24] and 1:
    their sum has 25 significant bits. *)
Definition rounding_graph : Matrix float :=
  let f := float_of_Z in
  [ [f 0; f 16777216; f 0];
    [f 0; f 0; f 1];
    [f 0; f 0; f 0] ]%Z.

(** ** Further vocabulary *)

Section MoreVocabulary.
Context {T : Type} `{Numeric T}.
Implicit Types (dist : list T) (proc : list bool) (this : Dijkstra T).

(** A later state of the main loop against an earlier one: a processed
    vertex stays processed and keeps its distance, and no distance has
    grown. *)
Definition settles (st st' : list T * list bool) : Prop :=
  (forall v, snd st !! v = Some true ->
             snd st' !! v = Some true /\ fst st' !! v = fst st !! v) /\
  (forall v d d', fst st !! v = Some d -> fst st' !! v = Some d' ->
                  num_le d' d = true).

(** An entry through which the relaxation loop never writes. *)
Definition inert (w : T) : Prop :=
  forall du dv, relaxed du w dv false = dv.

(** Two objects whose entries agree, or are both inert, away from the
    diagonal and from the column of the source [s]. *)
Definition same_edges (s : nat) this this' : Prop :=
  forall u v w w',
    u <> v -> v <> s ->
    entry this u v = Some w -> entry this' u v = Some w' ->
    w = w' \/ (inert w /\ inert w').

(** A vertex [min_distance] can select: unprocessed, with a distance that
    is ordered (not a NaN). *)
Definition candidate dist proc (v : nat) (d : T) : Prop :=
  proc !! v = Some false /\ dist !! v = Some d /\ num_le d d = true.

(** The processed vertices are at most as far as the unprocessed ones. *)
Definition greedy (st : list T * list bool) : Prop :=
  forall x y dx dy,
    snd st !! x = Some true -> snd st !! y = Some false ->
    fst st !! x = Some dx -> fst st !! y = Some dy ->
    num_le dx dy = true.

(** The body of the relaxation loop of [relax]. *)
Definition relax_body (u : nat) proc (v : nat) dist : M T (list T) :=
  let* p := vec_get proc v in
  if negb p then
    let* w := graph_at u v in
    if truthy w then
      let* du := vec_get dist u in
      if num_ne du num_inf then
        let* dv := vec_get dist v in
        if num_lt (num_add du w) dv then vec_set dist v (num_add du w)
        else ret dist
      else ret dist
    else ret dist
  else ret dist.

(** Two objects with the same [size] and the same entries in the square
    of that size. *)
Definition agree this this' : Prop :=
  size this = size this' /\
  forall u v, u < size this -> v < size this ->
              entry this u v = entry this' u v.

(** The method body [m] ends in the same way on two objects: it returns
    the same value, which has [Q], and leaves both as they are, or it has
    the same fault or condition. *)
Definition same_outcome {A : Type} (m : M T A) this this' (Q : A -> Prop)
  : Prop :=
  match m this, m this' with
  | Ret (a, t), Ret (a', t') => a = a' /\ t = this /\ t' = this' /\ Q a
  | Raise c, Raise c' => c = c'
  | Undefined f, Undefined f' => f = f'
  | _, _ => False
  end.

(** The lines of the table of [output]: for each row in turn, each
    index with the entry of the row at it. *)
Definition table_of (output : Matrix T) : list (nat * T) :=
  concat (map (imap (fun j d => (j, d))) output).

End MoreVocabulary.

(** An infinite entry of a binary32 matrix replaced by [0]. *)
Definition drop_infinite (w : float) : float :=
  match w with
  | S754_infinity false => S754_zero false
  | _ => w
  end.

(** The matrix of [main] with another diagonal and another first
    column. *)
Definition main_graph_variant : Matrix float :=
  let inf := S754_infinity false in
  let f := float_of_Z in
  [ [f 7; inf; f (-2); inf];
    [f (-3); f 7; f 3; inf];
    [f 5; inf; S754_nan; f 2];
    [f 1; f (-1); inf; inf] ]%Z.

(** * Part III: lemmas and theorems *)

(** ** Reasoning about method bodies *)

Section Returns.
Context {T : Type} `{Numeric T}.
Implicit Types (dist : list T) (proc : list bool) (this : Dijkstra T).

Lemma returns_ret {A : Type} (a : A) this (Q : A -> Prop) :
  Q a -> returns (ret a) this Q.
Proof. intros HQ. exists a. split; [reflexivity | exact HQ]. Qed.

Lemma returns_bind {A B : Type} (m : M T A) (k : A -> M T B) this
  (P : A -> Prop) (Q : B -> Prop) :
  returns m this P ->
  (forall a, P a -> returns (k a) this Q) ->
  returns (bind m k) this Q.
Proof.
  intros (a & Hm & HP) Hk.
  destruct (Hk a HP) as (b & Hb & HQ).
  exists b. split; [|exact HQ].
  unfold bind. rewrite Hm. exact Hb.
Qed.

Lemma returns_weaken {A : Type} (m : M T A) this (P Q : A -> Prop) :
  returns m this P -> (forall a, P a -> Q a) -> returns m this Q.
Proof. intros (a & Hm & HP) HPQ. exists a. auto. Qed.

Lemma returns_for_loop {St : Type} (I : nat -> St -> Prop)
  (body : nat -> St -> M T St) this n :
  forall i s,
    I i s ->
    (forall j t, i <= j < i + n -> I j t ->
                 returns (body j t) this (I (S j))) ->
    returns (for_loop n i body s) this (I (i + n)).
Proof.
  induction n as [|n IH]; intros i s Hs Hbody; simpl.
  - apply returns_ret. replace (i + 0) with i by lia. exact Hs.
  - eapply returns_bind.
    + apply Hbody; [lia | exact Hs].
    + intros s' Hs'. replace (i + S n) with (S i + n) by lia.
      apply IH; [exact Hs'|]. intros j t Hj. apply Hbody. lia.
Qed.

Lemma returns_vec_get {A : Type} (v : list A) i x this (Q : A -> Prop) :
  v !! i = Some x -> Q x -> returns (vec_get v i) this Q.
Proof. intros Hv HQ. unfold vec_get. rewrite Hv. apply returns_ret, HQ. Qed.

Lemma returns_vec_set {A : Type} (v : list A) i x this
  (Q : list A -> Prop) :
  i < length v -> Q (<[i:=x]> v) -> returns (vec_set v i x) this Q.
Proof.
  intros Hi HQ. unfold vec_set. destruct (decide (i < length v)); [|lia].
  apply returns_ret, HQ.
Qed.

Lemma returns_get_size this (Q : nat -> Prop) :
  Q (size this) -> returns get_size this Q.
Proof. intros HQ. exists (size this). split; [reflexivity | exact HQ]. Qed.

Lemma returns_bind_size {A : Type} (k : nat -> M T A) this
  (Q : A -> Prop) :
  returns (k (size this)) this Q -> returns (bind get_size k) this Q.
Proof.
  intros Hk. apply (returns_bind _ _ _ (fun n => n = size this)).
  - apply returns_get_size. reflexivity.
  - intros n ->. exact Hk.
Qed.

Lemma returns_bind_get {A B : Type} (v : list A) i x (k : A -> M T B) this
  (Q : B -> Prop) :
  v !! i = Some x -> returns (k x) this Q ->
  returns (bind (vec_get v i) k) this Q.
Proof.
  intros Hv Hk. apply (returns_bind _ _ _ (fun y => y = x)).
  - apply (returns_vec_get _ _ x); [exact Hv | reflexivity].
  - intros y ->. exact Hk.
Qed.

Lemma returns_bind_set {A B : Type} (v : list A) i x
  (k : list A -> M T B) this (Q : B -> Prop) :
  i < length v -> returns (k (<[i:=x]> v)) this Q ->
  returns (bind (vec_set v i x) k) this Q.
Proof.
  intros Hi Hk. apply (returns_bind _ _ _ (fun y => y = <[i:=x]> v)).
  - apply returns_vec_set; [exact Hi | reflexivity].
  - intros y ->. exact Hk.
Qed.

Lemma returns_unique {A : Type} (m : M T A) this (P Q : A -> Prop) :
  returns m this P -> returns m this Q ->
  returns m this (fun a => P a /\ Q a).
Proof.
  intros (a & Ha & HP) (b & Hb & HQ). rewrite Ha in Hb.
  injection Hb as <-. exists a. auto.
Qed.

End Returns.

(** ** Methods that do not assign to the object *)

Section Readonly.
Context {T : Type} `{Numeric T}.
Implicit Types (dist : list T) (proc : list bool) (this : Dijkstra T).

Lemma readonly_ret {A : Type} (a : A) : readonly (@ret T A a).
Proof. intros this b this' [= _ <-]. reflexivity. Qed.

Lemma readonly_undefined {A : Type} (f : fault) : readonly (@undefined T A f).
Proof. intros this b this'. discriminate. Qed.

Lemma readonly_bind {A B : Type} (m : M T A) (k : A -> M T B) :
  readonly m -> (forall a, readonly (k a)) -> readonly (bind m k).
Proof.
  intros Hm Hk this b this'. unfold bind.
  destruct (m this) as [[a t]| |] eqn:Hmt; try discriminate.
  apply Hm in Hmt as ->. apply Hk.
Qed.

Lemma readonly_for_loop {St : Type} (body : nat -> St -> M T St) n :
  (forall i s, readonly (body i s)) ->
  forall i s, readonly (for_loop n i body s).
Proof.
  intros Hbody. induction n as [|n IH]; intros i s; simpl.
  - apply readonly_ret.
  - apply readonly_bind; [apply Hbody | intros s'; apply IH].
Qed.

Lemma readonly_vec_get {A : Type} (v : list A) i : readonly (@vec_get T A v i).
Proof.
  unfold vec_get. destruct (v !! i);
    [apply readonly_ret | apply readonly_undefined].
Qed.

Lemma readonly_vec_set {A : Type} (v : list A) i x :
  readonly (@vec_set T A v i x).
Proof.
  unfold vec_set. destruct (decide (i < length v));
    [apply readonly_ret | apply readonly_undefined].
Qed.

Lemma readonly_vec_set_int {A : Type} (v : list A) i x :
  readonly (@vec_set_int T A v i x).
Proof.
  unfold vec_set_int. destruct (decide (0 <= i)%Z);
    [apply readonly_vec_set | apply readonly_undefined].
Qed.

Lemma readonly_get_size : readonly (@get_size T).
Proof. intros this n this' [= _ <-]. reflexivity. Qed.

Lemma readonly_graph_at u v : readonly (@graph_at T u v).
Proof.
  intros this w this'. unfold graph_at.
  destruct (graph this !! u) as [row|]; [|discriminate].
  destruct (row !! v); [|discriminate]. intros [= _ <-]. reflexivity.
Qed.

Ltac readonly_step :=
  cbv beta;
  match goal with
  | |- forall _, _ => intro
  | |- readonly (ret _) => apply readonly_ret
  | |- readonly (undefined _) => apply readonly_undefined
  | |- readonly (bind _ _) => apply readonly_bind
  | |- readonly (for_loop _ _ _ _) => apply readonly_for_loop
  | |- readonly (vec_get _ _) => apply readonly_vec_get
  | |- readonly (vec_set _ _ _) => apply readonly_vec_set
  | |- readonly (vec_set_int _ _ _) => apply readonly_vec_set_int
  | |- readonly get_size => apply readonly_get_size
  | |- readonly (graph_at _ _) => apply readonly_graph_at
  | |- readonly (match ?x with _ => _ end) => destruct x
  end.

Lemma readonly_min_distance dist proc : readonly (min_distance dist proc).
Proof. unfold min_distance. repeat readonly_step. Qed.

Lemma readonly_relax u proc dist : readonly (relax u proc dist).
Proof. unfold relax. repeat readonly_step. Qed.

Lemma readonly_round st : readonly (round st).
Proof.
  unfold round. destruct st as [dist proc].
  repeat first [apply readonly_min_distance | apply readonly_relax
               | readonly_step].
Qed.

Lemma readonly_rounds source k : readonly (rounds source k).
Proof.
  unfold rounds, initial.
  repeat first [apply readonly_round | readonly_step].
Qed.

Lemma readonly_from_vertex source : readonly (from_vertex source).
Proof.
  unfold from_vertex. repeat first [apply readonly_rounds | readonly_step].
Qed.

(** *** No method raises a condition *)

Lemma never_raises_ret {A : Type} (a : A) : never_raises (@ret T A a).
Proof. intros this c. discriminate. Qed.

Lemma never_raises_undefined {A : Type} (f : fault) :
  never_raises (@undefined T A f).
Proof. intros this c. discriminate. Qed.

Lemma never_raises_bind {A B : Type} (m : M T A) (k : A -> M T B) :
  never_raises m -> (forall a, never_raises (k a)) -> never_raises (bind m k).
Proof.
  intros Hm Hk this c. unfold bind.
  destruct (m this) as [[a t]|c'|f] eqn:Hmt.
  - apply Hk.
  - destruct (Hm this c' Hmt).
  - discriminate.
Qed.

Lemma never_raises_for_loop {St : Type} (body : nat -> St -> M T St) n :
  (forall i s, never_raises (body i s)) ->
  forall i s, never_raises (for_loop n i body s).
Proof.
  intros Hbody. induction n as [|n IH]; intros i s; simpl.
  - apply never_raises_ret.
  - apply never_raises_bind; [apply Hbody | intros s'; apply IH].
Qed.

Lemma never_raises_vec_get {A : Type} (v : list A) i :
  never_raises (@vec_get T A v i).
Proof.
  unfold vec_get. destruct (v !! i);
    [apply never_raises_ret | apply never_raises_undefined].
Qed.

Lemma never_raises_vec_set {A : Type} (v : list A) i x :
  never_raises (@vec_set T A v i x).
Proof.
  unfold vec_set. destruct (decide (i < length v));
    [apply never_raises_ret | apply never_raises_undefined].
Qed.

Lemma never_raises_vec_set_int {A : Type} (v : list A) i x :
  never_raises (@vec_set_int T A v i x).
Proof.
  unfold vec_set_int. destruct (decide (0 <= i)%Z);
    [apply never_raises_vec_set | apply never_raises_undefined].
Qed.

Lemma never_raises_get_size : never_raises (@get_size T).
Proof. intros this c. discriminate. Qed.

Lemma never_raises_graph_at u v : never_raises (@graph_at T u v).
Proof.
  intros this c. unfold graph_at.
  destruct (graph this !! u) as [row|]; [|discriminate].
  destruct (row !! v); discriminate.
Qed.

Ltac never_raises_step :=
  cbv beta;
  match goal with
  | |- forall _, _ => intro
  | |- never_raises (ret _) => apply never_raises_ret
  | |- never_raises (undefined _) => apply never_raises_undefined
  | |- never_raises (bind _ _) => apply never_raises_bind
  | |- never_raises (for_loop _ _ _ _) => apply never_raises_for_loop
  | |- never_raises (vec_get _ _) => apply never_raises_vec_get
  | |- never_raises (vec_set _ _ _) => apply never_raises_vec_set
  | |- never_raises (vec_set_int _ _ _) => apply never_raises_vec_set_int
  | |- never_raises get_size => apply never_raises_get_size
  | |- never_raises (graph_at _ _) => apply never_raises_graph_at
  | |- never_raises (match ?x with _ => _ end) => destruct x
  end.

(** [from_vertex] has no path that raises: the code has no [throw]. *)
Lemma never_raises_from_vertex source : never_raises (from_vertex source).
Proof.
  unfold from_vertex, rounds, initial, round, min_distance, relax.
  repeat never_raises_step.
Qed.

End Readonly.

(** ** Matrices, paths and the processed set *)

Section Graph.
Context {T : Type} `{Numeric T}.
Implicit Types (dist : list T) (proc : list bool) (this : Dijkstra T).

Lemma engine_new (g : Matrix T) : Dijkstra_new g = Ret (engine g).
Proof. reflexivity. Qed.

Lemma square_engine (g : Matrix T) : square_matrix g -> square (engine g).
Proof. intros Hg. split; [reflexivity | exact Hg]. Qed.

Lemma entry_is_Some this u v :
  square this -> u < size this -> v < size this ->
  exists w, entry this u v = Some w.
Proof.
  intros [Hlen Hrows] Hu Hv. unfold entry.
  destruct (lookup_lt_is_Some_2 (graph this) u) as [row Hrow]; [lia|].
  rewrite Hrow. apply lookup_lt_is_Some_2.
  rewrite Forall_lookup in Hrows. rewrite (Hrows u row Hrow). exact Hv.
Qed.

Lemma entry_lt this u v w :
  square this -> entry this u v = Some w -> u < size this /\ v < size this.
Proof.
  intros [Hlen Hrows]. unfold entry.
  destruct (graph this !! u) as [row|] eqn:Hrow; [|discriminate].
  intros Hw. apply lookup_lt_Some in Hw.
  rewrite Forall_lookup in Hrows. rewrite (Hrows u row Hrow) in Hw.
  apply lookup_lt_Some in Hrow. lia.
Qed.

Lemma returns_graph_at this u v w (Q : T -> Prop) :
  entry this u v = Some w -> Q w -> returns (graph_at u v) this Q.
Proof.
  unfold entry. intros Hw HQ. exists w. split; [|exact HQ].
  unfold graph_at. destruct (graph this !! u) as [row|]; [|discriminate].
  rewrite Hw. reflexivity.
Qed.

(** *** Counting the processed vertices *)

Lemma count_true_le (l : list bool) : count_true l <= length l.
Proof. induction l as [|[] l IH]; simpl; lia. Qed.

Lemma count_true_insert (l : list bool) u :
  l !! u = Some false ->
  count_true (<[u:=true]> l) = S (count_true l).
Proof.
  revert u. induction l as [|b l IH]; intros [|u]; simpl; try discriminate.
  - intros [= ->]. reflexivity.
  - intros Hu. rewrite (IH u Hu). lia.
Qed.

Lemma count_true_unprocessed (l : list bool) :
  count_true l < length l -> exists v, l !! v = Some false.
Proof.
  induction l as [|[] l IH]; simpl; intros Hlt.
  - lia.
  - destruct IH as [v Hv]; [lia|]. exists (S v). exact Hv.
  - exists 0. reflexivity.
Qed.

Lemma count_true_all (l : list bool) v :
  count_true l = length l -> l !! v = Some false -> False.
Proof.
  revert v. induction l as [|b l IH]; intros v; simpl.
  - discriminate.
  - pose proof (count_true_le l). destruct b, v as [|v]; simpl;
      try discriminate; try lia.
    intros Hc Hv. apply (IH v); [lia | exact Hv].
Qed.

Lemma count_true_last (l : list bool) a b :
  S (count_true l) = length l ->
  l !! a = Some false -> l !! b = Some false -> a = b.
Proof.
  revert a b. induction l as [|x l IH]; intros a b; simpl.
  - discriminate.
  - pose proof (count_true_le l).
    destruct x, a as [|a], b as [|b]; simpl;
      try discriminate; intros Hc Ha Hb; try reflexivity; try lia.
    + f_equal. apply IH; [lia | assumption | assumption].
    + exfalso. apply (count_true_all l b); [lia | exact Hb].
    + exfalso. apply (count_true_all l a); [lia | exact Ha].
    + exfalso. apply (count_true_all l a); [lia | exact Ha].
Qed.

Lemma count_true_replicate n : count_true (replicate n false) = 0.
Proof. induction n; simpl; auto. Qed.

Lemma count_true_zero (l : list bool) v b :
  count_true l = 0 -> l !! v = Some b -> b = false.
Proof.
  revert v. induction l as [|x l IH]; intros [|v]; simpl; try discriminate.
  - intros Hc [= ->]. destruct b; [discriminate | reflexivity].
  - intros Hc. apply IH. destruct x; [discriminate | exact Hc].
Qed.

(** *** Paths and walks *)

Lemma path_cost_app this p q u acc :
  path_cost this u (p ++ q) acc =
  match path_cost this u p acc with
  | Some c => path_cost this (path_end u p) q c
  | None => None
  end.
Proof.
  revert u acc. induction p as [|v p IH]; intros u acc; simpl.
  - reflexivity.
  - destruct (entry this u v) as [w|]; [|reflexivity].
    destruct (truthy w); [apply IH | reflexivity].
Qed.

Lemma path_end_app p q u : path_end u (p ++ q) = path_end (path_end u p) q.
Proof. revert u. induction p as [|v p IH]; intros u; simpl; auto. Qed.

Lemma walk_follow this s p :
  forall u acc c,
    walk this s u acc -> path_cost this u p acc = Some c ->
    walk this s (path_end u p) c.
Proof.
  induction p as [|v p IH]; intros u acc c Hw; simpl.
  - intros [= <-]. exact Hw.
  - destruct (entry this u v) as [w|] eqn:Hent; [|discriminate].
    destruct (truthy w) eqn:Htr; [|discriminate].
    apply IH. eapply walk_edge; eassumption.
Qed.

Lemma path_walk this s p v c : path this s p v c -> walk this s v c.
Proof.
  intros (Hs & <- & Hc). eapply walk_follow; [|exact Hc].
  apply walk_start, Hs.
Qed.

Lemma walk_path this s v c :
  walk this s v c -> exists p, path this s p v c.
Proof.
  induction 1 as [Hs|u v c w Hw (p & Hs & Hend & Hc) Hent Htr].
  - exists []. repeat split; [exact Hs].
  - exists (p ++ [v]). split; [exact Hs|]. split.
    + rewrite path_end_app. reflexivity.
    + rewrite path_cost_app, Hc, Hend. simpl. rewrite Hent, Htr.
      reflexivity.
Qed.

End Graph.

(** ** The loops of the two methods *)

Section Loops.
Context {T : Type} `{Numeric T} `{!OrderLaws T}.
Implicit Types (dist : list T) (proc : list bool) (this : Dijkstra T).

Lemma initial_spec this :
  returns initial this (fun st =>
    st = (replicate (size this) num_inf, replicate (size this) false)).
Proof.
  unfold initial. apply returns_bind_size. eapply returns_weaken.
  - apply (returns_for_loop
             (fun j st => st = (replicate j num_inf, replicate j false))).
    + reflexivity.
    + intros j [d p] _ [= -> ->]. apply returns_ret.
      rewrite !replicate_S_end. reflexivity.
  - simpl. auto.
Qed.

Lemma scan_step this dist proc j st :
  length dist = size this -> length proc = size this -> ordered dist ->
  j < size this -> scan_inv dist proc j st ->
  returns
    (let '(min, min_index) := st in
     let* p := vec_get proc j in
     if negb p then
       let* d := vec_get dist j in
       if num_le d min then ret (d, Some j) else ret (min, min_index)
     else ret (min, min_index))
    this (scan_inv dist proc (S j)).
Proof.
  intros Hld Hlp Hord Hj Hinv. destruct st as [min mi].
  destruct (lookup_lt_is_Some_2 proc j) as [p Hp]; [lia|].
  destruct (lookup_lt_is_Some_2 dist j) as [d Hd]; [lia|].
  pose proof (Hord j d Hd) as Hdd.
  apply (returns_bind_get _ _ _ _ _ _ Hp). destruct p; simpl.
  - (* processed: skipped *)
    apply returns_ret. destruct mi as [u|]; simpl in *.
    + destruct Hinv as (Hu & Hpu & Hdu & Hmin).
      split; [lia|]. split; [exact Hpu|]. split; [exact Hdu|].
      intros v dv Hv Hpv Hdv. destruct (decide (v = j)) as [->|Hne].
      * rewrite Hp in Hpv. discriminate.
      * apply Hmin; [lia | exact Hpv | exact Hdv].
    + destruct Hinv as [-> Hall]. split; [reflexivity|].
      intros v Hv. destruct (decide (v = j)) as [->|Hne]; [exact Hp|].
      apply Hall. lia.
  - apply (returns_bind_get _ _ _ _ _ _ Hd).
    destruct (num_le d min) eqn:Hle; apply returns_ret.
    + (* the candidate replaces the best so far *)
      simpl. split; [lia|]. split; [exact Hp|]. split; [exact Hd|].
      intros v dv Hv Hpv Hdv. destruct (decide (v = j)) as [->|Hne].
      * assert (dv = d) as -> by congruence. split; [exact Hdd | lia].
      * split; [|lia]. destruct mi as [u|]; simpl in Hinv.
        -- destruct Hinv as (_ & _ & _ & Hmin).
           apply (le_trans _ min); [exact Hle|].
           apply (Hmin v dv); [lia | exact Hpv | exact Hdv].
        -- destruct Hinv as [_ Hall]. rewrite Hall in Hpv by lia.
           discriminate.
    + (* the candidate is larger *)
      destruct mi as [u|]; simpl in *.
      * destruct Hinv as (Hu & Hpu & Hdu & Hmin).
        split; [lia|]. split; [exact Hpu|]. split; [exact Hdu|].
        intros v dv Hv Hpv Hdv. destruct (decide (v = j)) as [->|Hne].
        -- assert (dv = d) as -> by congruence. split; [|congruence].
           destruct (le_total min d) as [Hmd|Hdm];
             [exact (Hord u min Hdu) | exact Hdd | exact Hmd | congruence].
        -- apply Hmin; [lia | exact Hpv | exact Hdv].
      * destruct Hinv as [-> _]. rewrite (le_top d Hdd) in Hle.
        discriminate.
Qed.

Lemma min_distance_spec this dist proc :
  length dist = size this -> length proc = size this -> ordered dist ->
  (exists v, proc !! v = Some false) ->
  returns (min_distance dist proc) this (selects dist proc).
Proof.
  intros Hld Hlp Hord [v0 Hv0]. unfold min_distance.
  apply returns_bind_size. eapply returns_bind.
  - apply (returns_for_loop (scan_inv dist proc)).
    + simpl. split; [reflexivity|]. intros v Hv. lia.
    + intros j st Hj Hinv. apply scan_step; auto. lia.
  - intros [min [u|]] Hinv; simpl in Hinv.
    + apply returns_ret. destruct Hinv as (Hu & Hpu & Hdu & Hmin).
      split; [exact Hpu|]. exists min. split; [exact Hdu|].
      intros v dv Hpv Hdv. apply Hmin; [|exact Hpv|exact Hdv].
      apply lookup_lt_Some in Hpv. lia.
    + destruct Hinv as [_ Hall]. rewrite Hall in Hv0; [discriminate|].
      apply lookup_lt_Some in Hv0. lia.
Qed.

Lemma scan_best_S dist proc j :
  scan_best dist proc (S j) =
  scan_update dist proc (scan_best dist proc j) j.
Proof. unfold scan_best. rewrite seq_S, fold_left_app. reflexivity. Qed.

(** [min_distance] computes the scan of the specification. *)
Lemma min_distance_scan this dist proc :
  length dist = size this -> length proc = size this ->
  min_distance dist proc this =
  match snd (scan_best dist proc (size this)) with
  | Some u => Ret (u, this)
  | None => Undefined Uninitialised
  end.
Proof.
  intros Hld Hlp. unfold min_distance, bind at 1 2. simpl.
  destruct (returns_for_loop (T:=T)
              (fun j st => st = scan_best dist proc j)
              (fun v '(min, min_index) =>
                 let* p := vec_get proc v in
                 if negb p then
                   let* d := vec_get dist v in
                   if num_le d min then ret (d, Some v)
                   else ret (min, min_index)
                 else ret (min, min_index))
              this (size this) 0 (num_inf, None))
    as (st & Hst & ->).
  - reflexivity.
  - intros j [min mi] Hj Hscan. simpl in Hj.
    destruct (lookup_lt_is_Some_2 proc j) as [p Hp]; [lia|].
    destruct (lookup_lt_is_Some_2 dist j) as [d Hd]; [lia|].
    rewrite scan_best_S, <- Hscan. unfold scan_update. rewrite Hp, Hd.
    apply (returns_bind_get _ _ _ _ _ _ Hp). destruct p; simpl.
    + apply returns_ret. reflexivity.
    + apply (returns_bind_get _ _ _ _ _ _ Hd).
      destruct (num_le d min); apply returns_ret; reflexivity.
  - rewrite Hst. simpl.
    destruct (scan_best dist proc (size this)) as [best [u|]]; reflexivity.
Qed.

Lemma relax_inv_keep this u du proc dist j d :
  relax_inv this u du proc dist j d ->
  (forall pv w dv,
     proc !! j = Some pv -> entry this u j = Some w ->
     dist !! j = Some dv -> relaxed du w dv pv = dv) ->
  relax_inv this u du proc dist (S j) d.
Proof.
  intros (Hlen & Hu & Hall) Hkeep. split; [exact Hlen|]. split; [exact Hu|].
  intros v pv w dv Hpv Hw Hdv. rewrite (Hall v pv w dv Hpv Hw Hdv).
  destruct (decide (v = j)) as [->|Hne].
  - rewrite (Hkeep pv w dv Hpv Hw Hdv).
    destruct (decide (j < j)), (decide (j < S j)); try lia. reflexivity.
  - destruct (decide (v < j)), (decide (v < S j)); try lia; reflexivity.
Qed.

Lemma relax_inv_set this u du proc dist j d x :
  relax_inv this u du proc dist j d ->
  j <> u -> j < size this ->
  (forall pv w dv,
     proc !! j = Some pv -> entry this u j = Some w ->
     dist !! j = Some dv -> relaxed du w dv pv = x) ->
  relax_inv this u du proc dist (S j) (<[j:=x]> d).
Proof.
  intros (Hlen & Hu & Hall) Hju Hj Hset. split; [|split].
  - rewrite length_insert. exact Hlen.
  - rewrite list_lookup_insert_ne by exact Hju. exact Hu.
  - intros v pv w dv Hpv Hw Hdv. destruct (decide (v = j)) as [->|Hne].
    + rewrite list_lookup_insert_eq by lia.
      rewrite (Hset pv w dv Hpv Hw Hdv).
      destruct (decide (j < S j)); [reflexivity | lia].
    + rewrite list_lookup_insert_ne by auto.
      rewrite (Hall v pv w dv Hpv Hw Hdv).
      destruct (decide (v < j)), (decide (v < S j)); try lia; reflexivity.
Qed.

Lemma relax_spec this u du proc dist :
  square this -> length dist = size this -> length proc = size this ->
  proc !! u = Some true -> dist !! u = Some du ->
  returns (relax u proc dist) this
    (relax_inv this u du proc dist (size this)).
Proof.
  intros Hsq Hld Hlp Hpu Hdu. unfold relax. apply returns_bind_size.
  apply (returns_for_loop (relax_inv this u du proc dist)).
  { split; [exact Hld|]. split; [exact Hdu|].
    intros v pv w dv _ _ Hdv. rewrite Hdv.
    destruct (decide (v < 0)); [lia | reflexivity]. }
  intros j d Hj Hinv. simpl in Hj.
  assert (Hun : u < size this) by (apply lookup_lt_Some in Hpu; lia).
  destruct (lookup_lt_is_Some_2 proc j) as [p Hp]; [lia|].
  destruct (lookup_lt_is_Some_2 dist j) as [dv Hdv]; [lia|].
  destruct (entry_is_Some this u j Hsq Hun) as [w Hw]; [lia|].
  pose proof Hinv as (Hlen & Hu & Hall).
  assert (Hdj : d !! j = Some dv).
  { rewrite (Hall j p w dv Hp Hw Hdv).
    destruct (decide (j < j)); [lia | reflexivity]. }
  apply (returns_bind_get _ _ _ _ _ _ Hp). destruct p; simpl.
  { apply returns_ret, relax_inv_keep; [exact Hinv|].
    intros pv w' dv' Hpv _ _. assert (pv = true) as -> by congruence.
    reflexivity. }
  eapply returns_bind; [apply (returns_graph_at _ _ _ w (fun x => x = w));
                        [exact Hw | reflexivity]|].
  intros ? ->. destruct (truthy w) eqn:Htr.
  2:{ apply returns_ret, relax_inv_keep; [exact Hinv|].
      intros pv w' dv' Hpv Hw' _. assert (w' = w) as -> by congruence.
      unfold relaxed. rewrite Htr, andb_false_r. reflexivity. }
  apply (returns_bind_get _ _ _ _ _ _ Hu).
  destruct (num_ne du num_inf) eqn:Hne.
  2:{ apply returns_ret, relax_inv_keep; [exact Hinv|].
      intros pv w' dv' _ _ _.
      unfold relaxed. rewrite Hne, andb_false_r. reflexivity. }
  apply (returns_bind_get _ _ _ _ _ _ Hdj).
  destruct (num_lt (num_add du w) dv) eqn:Hlt.
  2:{ apply returns_ret, relax_inv_keep; [exact Hinv|].
      intros pv w' dv' _ Hw' Hdv'.
      assert (w' = w) as -> by congruence.
      assert (dv' = dv) as -> by congruence.
      unfold relaxed. rewrite Hlt, andb_false_r. reflexivity. }
  apply returns_vec_set; [lia|]. apply relax_inv_set; [exact Hinv| |lia|].
  - intros ->. congruence.
  - intros pv w' dv' Hpv Hw' Hdv'.
    assert (w' = w) as -> by congruence.
    assert (dv' = dv) as -> by congruence.
    assert (pv = false) as -> by congruence.
    unfold relaxed. rewrite Htr, Hne, Hlt. reflexivity.
Qed.

Lemma round_spec this dist proc :
  square this -> length dist = size this -> length proc = size this ->
  ordered dist -> (exists v, proc !! v = Some false) ->
  returns (round (dist, proc)) this (round_post this dist proc).
Proof.
  intros Hsq Hld Hlp Hord Hex. unfold round.
  eapply returns_bind; [apply min_distance_spec; assumption|].
  intros u Hsel. pose proof Hsel as (Hpu & du & Hdu & _).
  assert (Hu : u < length proc) by (apply lookup_lt_Some in Hpu; lia).
  apply returns_bind_set; [exact Hu|].
  eapply returns_bind.
  - apply (relax_spec this u du); auto.
    + rewrite length_insert. exact Hlp.
    + apply list_lookup_insert_eq. exact Hu.
  - intros dist' Hrel. apply returns_ret. exists u, du. auto.
Qed.

Lemma relaxed_cases (du w dv : T) (pv : bool) :
  relaxed du w dv pv = dv \/
  (pv = false /\ truthy w = true /\ num_ne du num_inf = true /\
   num_lt (num_add du w) dv = true /\ relaxed du w dv pv = num_add du w).
Proof.
  unfold relaxed. destruct pv; simpl; [left; reflexivity|].
  destruct (truthy w); simpl; [|left; reflexivity].
  destruct (num_ne du num_inf); simpl; [|left; reflexivity].
  destruct (num_lt (num_add du w) dv); [right; auto | left; reflexivity].
Qed.

(** Every vertex has its flag, its distance and its entry from [u]. *)
Lemma vertex_data this dist proc u v :
  square this -> length dist = size this -> length proc = size this ->
  u < size this -> v < size this ->
  exists dv pv w,
    dist !! v = Some dv /\ proc !! v = Some pv /\ entry this u v = Some w.
Proof.
  intros Hsq Hld Hlp Hu Hv.
  destruct (lookup_lt_is_Some_2 dist v) as [dv Hdv]; [lia|].
  destruct (lookup_lt_is_Some_2 proc v) as [pv Hpv]; [lia|].
  destruct (entry_is_Some this u v Hsq Hu Hv) as [w Hw].
  exists dv, pv, w. auto.
Qed.

(** An entry of the vector after the relaxation loop, in terms of the
    one before. *)
Lemma relax_entry this u du proc dist dist' v d :
  square this -> length dist = size this -> length proc = size this ->
  u < size this ->
  relax_inv this u du proc dist (size this) dist' ->
  dist' !! v = Some d ->
  exists dv pv w,
    dist !! v = Some dv /\ proc !! v = Some pv /\
    entry this u v = Some w /\ d = relaxed du w dv pv.
Proof.
  intros Hsq Hld Hlp Hu (Hlen & _ & Hall) Hd.
  assert (Hv : v < size this) by (apply lookup_lt_Some in Hd; lia).
  destruct (vertex_data this dist proc u v)
    as (dv & pv & w & Hdv & Hpv & Hw); auto.
  exists dv, pv, w. repeat (split; [assumption|]).
  rewrite (Hall v pv w dv Hpv Hw Hdv) in Hd.
  destruct (decide (v < size this)); [|lia]. congruence.
Qed.

(** The relaxation loop leaves a vertex as it is when the entry from [u]
    to it is zero. *)
Lemma relax_zero_entry this u du proc dist v w dv :
  square this -> length dist = size this -> length proc = size this ->
  proc !! u = Some true -> dist !! u = Some du ->
  entry this u v = Some w -> truthy w = false -> dist !! v = Some dv ->
  returns (relax u proc dist) this (fun dist' => dist' !! v = Some dv).
Proof.
  intros Hsq Hld Hlp Hpu Hdu Hw Htr Hdv. eapply returns_weaken.
  - apply (relax_spec this u du); assumption.
  - intros dist' (_ & _ & Hall).
    destruct (lookup_lt_is_Some_2 proc v) as [pv Hpv].
    { apply lookup_lt_Some in Hdv. lia. }
    rewrite (Hall v pv w dv Hpv Hw Hdv). unfold relaxed.
    rewrite Htr, andb_false_r. simpl.
    destruct (decide (v < size this)); reflexivity.
Qed.

(** *** The invariant of the main loop *)

Lemma basic_inv_start this s :
  s < size this ->
  basic_inv this s 0
    (<[s:=num_zero]> (replicate (size this) num_inf),
     replicate (size this) false).
Proof.
  intros Hs. pose proof le_zero_inf as Hzi. simpl.
  split; [rewrite length_insert; apply length_replicate|].
  split; [apply length_replicate|].
  split; [apply count_true_replicate|].
  split; [|split; [|split; [|split]]].
  - intros v d. rewrite list_lookup_insert_Some, lookup_replicate.
    intros [(_ & <- & _)|(_ & -> & _)];
      [eapply le_ordered_l | eapply le_ordered_r]; exact Hzi.
  - apply list_lookup_insert_eq. rewrite length_replicate. exact Hs.
  - lia.
  - intros _ v d Hne. rewrite list_lookup_insert_ne by auto.
    rewrite lookup_replicate. intros [-> _]. reflexivity.
  - intros v d. rewrite list_lookup_insert_Some, lookup_replicate.
    intros [(<- & <- & _)|(_ & -> & _)]; [right | left; reflexivity].
    apply walk_start, Hs.
Qed.

(** In the first round the source is selected. *)
Lemma first_selects_source this s dist proc u :
  basic_inv this s 0 (dist, proc) -> selects dist proc u -> u = s.
Proof.
  intros (Hld & Hlp & Hcnt & Hord & Hds & _ & Hinf & _).
  intros (Hpu & du & Hdu & Hmin).
  destruct (decide (u = s)) as [|Hne]; [assumption|exfalso].
  rewrite (Hinf eq_refl u du Hne Hdu) in Hmin.
  destruct (lookup_lt_is_Some_2 proc s) as [ps Hps].
  { apply lookup_lt_Some in Hds. lia. }
  rewrite (count_true_zero proc s ps Hcnt Hps) in Hps.
  destruct (Hmin s num_zero Hps Hds) as [Hle _].
  rewrite le_inf_zero in Hle. discriminate.
Qed.

Lemma basic_inv_step this s j dist proc st' :
  square this ->
  basic_inv this s j (dist, proc) ->
  round_post this dist proc st' ->
  basic_inv this s (S j) st'.
Proof.
  intros Hsq Hinv (u & du & Hsel & Hdu & Hproc & Hrel).
  destruct st' as [dist' proc']. simpl in Hproc, Hrel. subst proc'.
  pose proof Hinv as (Hld & Hlp & Hcnt & Hord & Hds & Hps & Hinf & Hreach).
  pose proof Hsel as (Hpu & _).
  assert (Hu : u < size this) by (apply lookup_lt_Some in Hdu; lia).
  assert (Hlp' : length (<[u:=true]> proc) = size this)
    by (rewrite length_insert; exact Hlp).
  assert (Hps' : <[u:=true]> proc !! s = Some true).
  { destruct (decide (u = s)) as [->|Hne].
    - apply list_lookup_insert_eq. lia.
    - rewrite list_lookup_insert_ne by exact Hne. apply Hps.
      destruct j; [|lia]. exfalso. apply Hne.
      eapply first_selects_source; eassumption. }
  pose proof Hrel as (Hlen & _ & Hall).
  split; [exact Hlen|]. split; [exact Hlp'|].
  split; [rewrite count_true_insert by exact Hpu; lia|].
  split; [|split; [|split; [|split]]].
  - intros v d Hd.
    destruct (relax_entry this u du (<[u:=true]> proc) dist dist' v d)
      as (dv & pv & w & Hdv & Hpv & Hw & ->); auto.
    destruct (relaxed_cases du w dv pv) as [->|(_ & _ & _ & Hlt & ->)].
    + exact (Hord v dv Hdv).
    + exact (lt_ordered _ _ Hlt).
  - destruct (entry_is_Some this u s Hsq Hu) as [w Hw].
    { apply lookup_lt_Some in Hds. lia. }
    rewrite (Hall s true w num_zero Hps' Hw Hds).
    destruct (decide (s < size this)); reflexivity.
  - intros _. exact Hps'.
  - discriminate.
  - intros v d Hd.
    destruct (relax_entry this u du (<[u:=true]> proc) dist dist' v d)
      as (dv & pv & w & Hdv & Hpv & Hw & ->); auto.
    destruct (relaxed_cases du w dv pv)
      as [->|(_ & Htr & Hne & _ & ->)].
    + exact (Hreach v dv Hdv).
    + right. destruct (Hreach u du Hdu) as [->|Hwalk].
      * unfold num_ne in Hne. rewrite eq_inf in Hne. discriminate.
      * eapply walk_edge; eassumption.
Qed.

(** The main loop runs: after [k <= size - 1] rounds the invariant
    holds, with any further property [J] the rounds maintain, and the
    object is as before. *)
Lemma rounds_inv this (source : Z) k (J : list T * list bool -> Prop) :
  square this -> (0 <= source < Z.of_nat (size this))%Z ->
  k <= size this - 1 ->
  J (<[Z.to_nat source:=num_zero]> (replicate (size this) num_inf),
     replicate (size this) false) ->
  (forall j dist proc st',
     basic_inv this (Z.to_nat source) j (dist, proc) -> J (dist, proc) ->
     round_post this dist proc st' -> J st') ->
  returns (rounds source k) this
    (fun st => basic_inv this (Z.to_nat source) k st /\ J st).
Proof.
  intros Hsq Hsrc Hk HJ0 HJ. unfold rounds.
  eapply returns_bind; [apply initial_spec|]. intros ? ->.
  unfold vec_set_int. destruct (decide (0 <= source)%Z); [|lia].
  apply returns_bind_set; [rewrite length_replicate; lia|].
  apply (returns_for_loop
           (fun j st => basic_inv this (Z.to_nat source) j st /\ J st)).
  - split; [apply basic_inv_start; lia | exact HJ0].
  - intros j [dist proc] Hj [Hinv HJst].
    pose proof Hinv as (Hld & Hlp & Hcnt & Hord & _).
    eapply returns_weaken.
    + apply round_spec; auto.
      apply count_true_unprocessed. lia.
    + intros st' Hpost. split.
      * eapply basic_inv_step; eassumption.
      * eapply HJ; eassumption.
Qed.

Lemma rounds_basic this (source : Z) k :
  square this -> (0 <= source < Z.of_nat (size this))%Z ->
  k <= size this - 1 ->
  returns (rounds source k) this (basic_inv this (Z.to_nat source) k).
Proof.
  intros Hsq Hsrc Hk. eapply returns_weaken.
  - apply (rounds_inv this source k (fun _ => True)); auto.
  - intros st [Hinv _]. exact Hinv.
Qed.

(** [from_vertex] returns the vector of the last state. *)
Lemma from_vertex_rounds this (source : Z) (Q : list T * list bool -> Prop) :
  returns (rounds source (size this - 1)) this Q ->
  returns (from_vertex source) this (fun dist => exists proc, Q (dist, proc)).
Proof.
  intros Hr. unfold from_vertex. apply returns_bind_size.
  eapply returns_bind; [exact Hr|].
  intros [dist proc] HQ. apply returns_ret. eauto.
Qed.

Lemma initial_eq this :
  initial this =
  Ret ((replicate (size this) num_inf, replicate (size this) false), this).
Proof. destruct (initial_spec this) as (st & Hst & ->). exact Hst. Qed.

Lemma run_returns (g : Matrix T) (source : Z) (Q : list T -> Prop) :
  returns (from_vertex source) (engine g) Q ->
  exists dist, run_from_vertex g source = Ret dist /\ Q dist.
Proof.
  intros (dist & Hd & HQ). exists dist. split; [|exact HQ].
  unfold run_from_vertex. rewrite engine_new, Hd. reflexivity.
Qed.

Lemma from_vertex_out_of_bounds this (source : Z) :
  ~ (0 <= source < Z.of_nat (size this))%Z ->
  from_vertex source this = Undefined OutOfBounds.
Proof.
  intros Hsrc. unfold from_vertex, rounds, bind. simpl.
  rewrite initial_eq. unfold vec_set_int, vec_set.
  destruct (decide (0 <= source)%Z); [|reflexivity].
  rewrite length_replicate.
  destruct (decide (Z.to_nat source < size this)); [lia | reflexivity].
Qed.

Lemma engine_rounds (g : Matrix T) (source : Z) k :
  square_matrix g -> (0 <= source < Z.of_nat (length g))%Z ->
  k <= length g - 1 ->
  returns (rounds source k) (engine g)
    (basic_inv (engine g) (Z.to_nat source) k).
Proof.
  intros Hg Hsrc Hk. apply rounds_basic; [apply square_engine, Hg|..]; auto.
Qed.

End Loops.

(** ** Shortest paths *)

Section ShortestPaths.
Context {T : Type} `{Numeric T} `{!OrderLaws T}.
Context (nn : T -> bool) `{!NonnegLaws T nn}.
Implicit Types (dist : list T) (proc : list bool) (this : Dijkstra T).

Lemma le_zero_zero : num_le num_zero num_zero = true.
Proof. exact (le_ordered_l _ _ le_zero_inf). Qed.

Lemma walk_nonneg this s v c :
  weights_in nn this -> walk this s v c -> nn c = true.
Proof.
  intros Hnn. induction 1 as [Hs|u v c w Hw IH Hent Htr].
  - apply nn_zero.
  - apply nn_add; [exact IH|]. exact (Hnn u v w Hent).
Qed.

(** A walk from the source ends at a vertex whose distance is at most its
    cost, or passes an unprocessed vertex whose distance is. *)
Lemma frontier this s j dist proc v c :
  square this -> weights_in nn this ->
  basic_inv this s j (dist, proc) -> sp_inv nn this s (dist, proc) ->
  walk this s v c ->
  (exists d, dist !! v = Some d /\ num_le d c = true) \/
  (exists y dy,
     proc !! y = Some false /\ dist !! y = Some dy /\ num_le dy c = true).
Proof.
  intros Hsq Hnn (Hld & Hlp & _ & Hord & Hds & _) (Hpos & Hfin & Hrel).
  induction 1 as [Hs|u v c w Hw IH Hent Htr].
  - left. exists num_zero. split; [exact Hds | apply le_zero_zero].
  - destruct (entry_lt this u v w Hsq Hent) as [Hu Hv].
    destruct (vertex_data this dist proc u v)
      as (dv & pv & _ & Hdv & Hpv & _); auto.
    pose proof (walk_nonneg this s u c Hnn Hw) as Hc.
    pose proof (Hnn u v w Hent) as Hw0.
    pose proof (add_increasing c w Hc Hw0) as Hcw.
    destruct pv.
    { left. exists dv. split; [exact Hdv|].
      apply (Hfin v dv _ Hpv Hdv). eapply walk_edge; eassumption. }
    destruct IH as [(du & Hdu & Hle)|(y & dy & Hpy & Hdy & Hle)].
    2:{ right. exists y, dy. repeat (split; [assumption|]).
        exact (le_trans _ _ _ Hle Hcw). }
    destruct (lookup_lt_is_Some_2 proc u) as [[] Hpu]; [lia| |].
    + left. exists dv. split; [exact Hdv|].
      apply (le_trans _ (num_add du w)).
      * exact (Hrel u v du dv w Hpu Hpv Hent Htr Hdu Hdv).
      * apply add_monotone;
          [exact (Hpos u du Hdu) | exact Hc | exact Hw0 | exact Hle].
    + right. exists u, du. repeat (split; [assumption|]).
      exact (le_trans _ _ _ Hle Hcw).
Qed.

Lemma sp_inv_start this s :
  sp_inv nn this s
    (<[s:=num_zero]> (replicate (size this) num_inf),
     replicate (size this) false).
Proof.
  split; [|split].
  - intros v d. rewrite list_lookup_insert_Some, lookup_replicate.
    intros [(_ & <- & _)|(_ & -> & _)]; [apply nn_zero | apply nn_inf].
  - intros u d c. rewrite lookup_replicate. intros [[=] _].
  - intros u v du dv w. rewrite lookup_replicate. intros [[=] _].
Qed.

Lemma relaxed_le (du w dv : T) (pv : bool) :
  num_le dv dv = true -> num_le (relaxed du w dv pv) dv = true.
Proof.
  intros Hdv. destruct (relaxed_cases du w dv pv)
    as [->|(_ & _ & _ & Hlt & ->)]; [exact Hdv|].
  pose proof (lt_ordered _ _ Hlt) as Hx.
  rewrite (lt_not_le _ _ Hx Hdv) in Hlt.
  destruct (le_total _ _ Hx Hdv) as [Hle|Hle]; [exact Hle|].
  rewrite Hle in Hlt. discriminate.
Qed.

Lemma sp_inv_step this s j dist proc st' :
  square this -> weights_in nn this ->
  basic_inv this s j (dist, proc) -> sp_inv nn this s (dist, proc) ->
  round_post this dist proc st' ->
  sp_inv nn this s st'.
Proof.
  intros Hsq Hnn Hinv Hsp (u & du & Hsel & Hdu & Hproc & Hrel).
  destruct st' as [dist' proc']. simpl in Hproc, Hrel. subst proc'.
  pose proof Hinv as (Hld & Hlp & _ & Hord & _).
  pose proof Hsp as (Hpos & Hfin & Hedge).
  pose proof Hsel as (Hpu & du' & Hdu' & Hmin).
  assert (du' = du) as -> by congruence. clear Hdu'.
  assert (Hu : u < size this) by (apply lookup_lt_Some in Hdu; lia).
  assert (Hlp' : length (<[u:=true]> proc) = size this)
    by (rewrite length_insert; exact Hlp).
  pose proof (Hpos u du Hdu) as Hdu0.
  (* the selected vertex is final *)
  assert (Hfinal : forall c, walk this s u c -> num_le du c = true).
  { intros c Hw.
    destruct (frontier this s j dist proc u c Hsq Hnn Hinv Hsp Hw)
      as [(d & Hd & Hle)|(y & dy & Hpy & Hdy & Hle)].
    - congruence.
    - apply (le_trans _ dy); [|exact Hle]. apply (Hmin y dy Hpy Hdy). }
  (* a processed vertex keeps its distance *)
  assert (Hkeep : forall x d, <[u:=true]> proc !! x = Some true ->
                    dist' !! x = Some d -> dist !! x = Some d).
  { intros x d Hpx Hd.
    destruct (relax_entry this u du (<[u:=true]> proc) dist dist' x d)
      as (dv & pv & w & Hdv & Hpv & Hw & ->); auto.
    assert (pv = true) as -> by congruence. exact Hdv. }
  split; [|split].
  - intros v d Hd.
    destruct (relax_entry this u du (<[u:=true]> proc) dist dist' v d)
      as (dv & pv & w & Hdv & Hpv & Hw & ->); auto.
    destruct (relaxed_cases du w dv pv) as [->|(_ & _ & _ & _ & ->)].
    + exact (Hpos v dv Hdv).
    + apply nn_add; [exact Hdu0 | exact (Hnn u v w Hw)].
  - intros x d c Hpx Hd Hwalk. apply Hkeep in Hd; [|exact Hpx].
    destruct (decide (x = u)) as [->|Hne].
    + assert (d = du) as -> by congruence. exact (Hfinal c Hwalk).
    + rewrite list_lookup_insert_ne in Hpx by auto.
      exact (Hfin x d c Hpx Hd Hwalk).
  - intros x v dx dv' w Hpx Hpv Hent Htr Hdx Hdv'.
    apply Hkeep in Hdx; [|exact Hpx].
    assert (Hvu : u <> v).
    { intros <-. rewrite list_lookup_insert_eq in Hpv by lia. discriminate. }
    destruct (relax_entry this u du (<[u:=true]> proc) dist dist' v dv')
      as (dv & pv & wu & Hdv & Hpv' & Hwu & ->); auto.
    assert (pv = false) as -> by congruence. clear Hpv'.
    rewrite list_lookup_insert_ne in Hpv by exact Hvu.
    pose proof (Hord v dv Hdv) as Hdvo.
    destruct (decide (x = u)) as [->|Hne].
    + assert (dx = du) as -> by congruence.
      assert (wu = w) as -> by congruence.
      pose proof (Hnn u v w Hent) as Hw0.
      pose proof (add_increasing du w Hdu0 Hw0) as Hinc.
      pose proof (le_ordered_r _ _ Hinc) as Hsum.
      unfold relaxed. rewrite Htr. simpl.
      destruct (num_ne du num_inf) eqn:Hinf; simpl.
      * rewrite (lt_not_le _ _ Hsum Hdvo).
        destruct (num_le dv (num_add du w)) eqn:Hle; simpl;
          [exact Hle | exact Hsum].
      * unfold num_ne in Hinf. apply negb_false_iff, eq_le in Hinf.
        apply (le_trans _ num_inf); [apply le_top, Hdvo|].
        exact (le_trans _ _ _ Hinf Hinc).
    + rewrite list_lookup_insert_ne in Hpx by auto.
      apply (le_trans _ dv); [apply relaxed_le, Hdvo|].
      exact (Hedge x v dx dv w Hpx Hpv Hent Htr Hdx Hdv).
Qed.

(** After the last round every distance is a lower bound of the costs of
    the walks to its vertex. *)
Lemma rounds_shortest this (source : Z) :
  square this -> weights_in nn this ->
  (0 <= source < Z.of_nat (size this))%Z ->
  returns (rounds source (size this - 1)) this (fun '(dist, _) =>
    length dist = size this /\
    forall v d, dist !! v = Some d ->
      (d = num_inf \/ walk this (Z.to_nat source) v d) /\
      forall c, walk this (Z.to_nat source) v c -> num_le d c = true).
Proof.
  intros Hsq Hnn Hsrc. eapply returns_weaken.
  - apply (rounds_inv this source (size this - 1)
             (sp_inv nn this (Z.to_nat source))); auto.
    + apply sp_inv_start.
    + intros j dist proc st'. apply sp_inv_step; assumption.
  - intros [dist proc] [Hinv Hsp].
    pose proof Hinv as (Hld & Hlp & Hcnt & _ & _ & _ & _ & Hreach).
    pose proof Hsp as (_ & Hfin & _).
    split; [exact Hld|]. intros v d Hd. split; [exact (Hreach v d Hd)|].
    intros c Hw.
    destruct (frontier this _ _ dist proc v c Hsq Hnn Hinv Hsp Hw)
      as [(d' & Hd' & Hle)|(y & dy & Hpy & Hdy & Hle)]; [congruence|].
    destruct (lookup_lt_is_Some_2 proc v) as [[] Hpv].
    { apply lookup_lt_Some in Hd. lia. }
    + exact (Hfin v d c Hpv Hd Hw).
    + assert (y = v) as ->.
      { apply (count_true_last proc); [|assumption|assumption].
        apply lookup_lt_Some in Hd. lia. }
      congruence.
Qed.

End ShortestPaths.

(** ** Rounding and addition in binary32 *)

(** [SFadd] aligns the two mantissas, adds them as integers and rounds
    the sum with [binary_normalize].  On values that are not negative the
    result is determined by the sum of the two values: it is that sum
    rounded to 24 significant bits ([RNE]), or infinity.  Rounding is
    monotone and leaves a binary32 value as it is, which gives the laws
    of [NonnegLaws]. *)
Section Binary32.
Local Open Scope Z_scope.

Lemma fexp32 e : fexp prec32 emax32 e = Z.max (e - 24) (-149).
Proof. reflexivity. Qed.

Lemma digits2_pos_bounds (m : positive) :
  2 ^ (Z.pos (digits2_pos m) - 1) <= Z.pos m < 2 ^ Z.pos (digits2_pos m).
Proof.
  induction m as [m IH|m IH|]; simpl digits2_pos.
  - rewrite Pos2Z.inj_succ.
    replace (Z.succ (Z.pos (digits2_pos m)) - 1)
      with (Z.succ (Z.pos (digits2_pos m) - 1)) by lia.
    rewrite !Z.pow_succ_r by lia. lia.
  - rewrite Pos2Z.inj_succ.
    replace (Z.succ (Z.pos (digits2_pos m)) - 1)
      with (Z.succ (Z.pos (digits2_pos m) - 1)) by lia.
    rewrite !Z.pow_succ_r by lia. lia.
  - simpl. lia.
Qed.

Lemma pow2_pos k : 0 <= k -> 0 < 2 ^ k.
Proof. intros. apply Z.pow_pos_nonneg; lia. Qed.

Lemma pow2_le j k : 0 <= j <= k -> 2 ^ j <= 2 ^ k.
Proof. intros. apply Z.pow_le_mono_r; lia. Qed.

Lemma digits2_pos_unique (m : positive) k :
  2 ^ (k - 1) <= Z.pos m < 2 ^ k -> 1 <= k -> Z.pos (digits2_pos m) = k.
Proof.
  intros Hk Hk1. pose proof (digits2_pos_bounds m) as Hd.
  set (d := Z.pos (digits2_pos m)) in *. assert (1 <= d) by (unfold d; lia).
  destruct (Z.lt_trichotomy d k) as [Hlt|[Heq|Hgt]]; [|exact Heq|].
  - pose proof (pow2_le d (k - 1) ltac:(lia)). lia.
  - pose proof (pow2_le k (d - 1) ltac:(lia)). lia.
Qed.

(** [iter_pos] as an iteration over [nat]. *)
Lemma iter_pos_nat {A : Type} (f : A -> A) (p : positive) (x : A) :
  SpecFloat.iter_pos f p x = Nat.iter (Pos.to_nat p) f x.
Proof.
  revert x. induction p as [p IH|p IH|]; intros x; simpl SpecFloat.iter_pos.
  - rewrite !IH, Pos2Nat.inj_xI.
    replace (S (2 * Pos.to_nat p))%nat with (Pos.to_nat p + (Pos.to_nat p + 1))%nat by lia.
    rewrite !Nat.iter_add. reflexivity.
  - rewrite !IH, Pos2Nat.inj_xO.
    replace (2 * Pos.to_nat p)%nat with (Pos.to_nat p + Pos.to_nat p)%nat by lia.
    rewrite Nat.iter_add. reflexivity.
  - reflexivity.
Qed.

Lemma shr_1_spec m r s :
  0 <= m ->
  shr_1 {| shr_m := m; shr_r := r; shr_s := s |} =
  {| shr_m := Z.div2 m; shr_r := Z.odd m; shr_s := r || s |}.
Proof. destruct m as [|[p|p|]|p]; intros Hm; try reflexivity; lia. Qed.

(** The record after [k] shifts of [M]: the bits shifted out are the
    round bit and the sticky bit. *)
Lemma shr_iter_spec (M : Z) (k : nat) :
  0 <= M ->
  exists m r s t,
    Nat.iter k shr_1 {| shr_m := M; shr_r := false; shr_s := false |} =
      {| shr_m := m; shr_r := r; shr_s := s |} /\
    0 <= m /\
    2 * M = m * 2 ^ (Z.of_nat k + 1) + Z.b2z r * 2 ^ Z.of_nat k + t /\
    0 <= t < 2 ^ Z.of_nat k /\ (s = false <-> t = 0).
Proof.
  intros HM. induction k as [|k (m & r & s & t & Hit & Hm & Heq & Ht & Hs)].
  - exists M, false, false, 0. simpl. repeat split; lia.
  - simpl Nat.iter. rewrite Hit, shr_1_spec by exact Hm.
    exists (Z.div2 m), (Z.odd m), (r || s), (Z.b2z r * 2 ^ Z.of_nat k + t).
    split; [reflexivity|].
    pose proof (Z.div2_odd m) as Hdiv.
    pose proof (pow2_pos (Z.of_nat k) ltac:(lia)) as Hpos.
    rewrite Nat2Z.inj_succ.
    replace (Z.succ (Z.of_nat k) + 1) with (Z.succ (Z.of_nat k + 1)) by lia.
    rewrite !Z.pow_succ_r by lia.
    rewrite Z.pow_add_r in Heq by lia. rewrite Z.pow_1_r in Heq.
    rewrite Z.pow_add_r by lia. rewrite Z.pow_1_r.
    assert (0 <= Z.div2 m) by (apply Z.div2_nonneg; lia).
    split; [assumption|]. split.
    + destruct (Z.odd m); simpl Z.b2z in *; nia.
    + split.
      * destruct r; simpl Z.b2z; lia.
      * destruct r, s; simpl; split; intros Hx;
          try discriminate; try reflexivity; try lia;
          first [ destruct Hs as [Hs _]; specialize (Hs eq_refl); lia
                | destruct Hs as [_ Hs];
                  assert (Ht0 : t = 0) by lia; specialize (Hs Ht0);
                  discriminate ].
Qed.

Lemma rnd_q_0 M : rnd_q M 0 = M.
Proof.
  unfold rnd_q, rnd_up. rewrite Z.pow_0_r, Z.mod_1_r, Z.div_1_r. simpl. lia.
Qed.

Lemma iter_round (M : Z) (k : nat) :
  0 <= M ->
  exists rec,
    Nat.iter k shr_1 {| shr_m := M; shr_r := false; shr_s := false |} = rec /\
    shr_m rec = M / 2 ^ Z.of_nat k /\
    round_nearest_even (shr_m rec) (loc_of_shr_record rec) = rnd_q M (Z.of_nat k).
Proof.
  intros HM. destruct (shr_iter_spec M k HM) as (m & r & s & t & Hit & Hm & Heq & Ht & Hs).
  eexists. split; [exact Hit|]. simpl shr_m.
  pose proof (pow2_pos (Z.of_nat k) ltac:(lia)) as Hpos.
  rewrite Z.pow_add_r, Z.pow_1_r in Heq by lia.
  set (x := M - m * 2 ^ Z.of_nat k).
  assert (Hx2 : 2 * x = Z.b2z r * 2 ^ Z.of_nat k + t) by (unfold x; lia).
  assert (Hx : 0 <= x < 2 ^ Z.of_nat k) by (destruct r; simpl Z.b2z in *; lia).
  assert (HMx : M = 2 ^ Z.of_nat k * m + x) by (unfold x; lia).
  assert (Hdiv : M / 2 ^ Z.of_nat k = m).
  { symmetry. apply (Z.div_unique _ _ m x); [left; exact Hx | exact HMx]. }
  assert (Hmod : M mod 2 ^ Z.of_nat k = x).
  { symmetry. apply (Z.mod_unique _ _ m x); [left; exact Hx | exact HMx]. }
  split; [symmetry; exact Hdiv|].
  unfold rnd_q, rnd_up. rewrite Hdiv, Hmod, Hx2.
  destruct r, s; simpl Z.b2z; simpl loc_of_shr_record; unfold round_nearest_even.
  - (* Gt *)
    assert (t <> 0) by (intros ->; destruct Hs as [_ Hs]; specialize (Hs eq_refl); discriminate).
    replace (2 ^ Z.of_nat k <? 1 * 2 ^ Z.of_nat k + t) with true by (symmetry; apply Z.ltb_lt; lia).
    simpl. reflexivity.
  - (* Eq *)
    assert (t = 0) by (apply Hs; reflexivity). subst t.
    replace (2 ^ Z.of_nat k <? 1 * 2 ^ Z.of_nat k + 0) with false by (symmetry; apply Z.ltb_ge; lia).
    replace (2 ^ Z.of_nat k =? 1 * 2 ^ Z.of_nat k + 0) with true by (symmetry; apply Z.eqb_eq; lia).
    simpl. rewrite <- Z.negb_odd. destruct (Z.odd m); simpl; lia.
  - (* Lt *)
    assert (t <> 0) by (intros ->; destruct Hs as [_ Hs]; specialize (Hs eq_refl); discriminate).
    replace (2 ^ Z.of_nat k <? 0 * 2 ^ Z.of_nat k + t) with false by (symmetry; apply Z.ltb_ge; lia).
    replace (2 ^ Z.of_nat k =? 0 * 2 ^ Z.of_nat k + t) with false by (symmetry; apply Z.eqb_neq; lia).
    simpl. lia.
  - (* exact *)
    assert (t = 0) by (apply Hs; reflexivity). subst t.
    replace (2 ^ Z.of_nat k <? 0 * 2 ^ Z.of_nat k + 0) with false by (symmetry; apply Z.ltb_ge; lia).
    replace (2 ^ Z.of_nat k =? 0 * 2 ^ Z.of_nat k + 0) with false by (symmetry; apply Z.eqb_neq; lia).
    simpl. lia.
Qed.

Lemma shr_spec (M ez n : Z) :
  0 <= M -> 0 <= n ->
  exists rec,
    shr {| shr_m := M; shr_r := false; shr_s := false |} ez n = (rec, ez + n) /\
    shr_m rec = M / 2 ^ n /\
    round_nearest_even (shr_m rec) (loc_of_shr_record rec) = rnd_q M n.
Proof.
  intros HM Hn. destruct n as [|p|p]; [| |lia].
  - eexists. split; [simpl; rewrite Z.add_0_r; reflexivity|].
    simpl. rewrite rnd_q_0, Z.div_1_r. split; reflexivity.
  - destruct (iter_round M (Pos.to_nat p) HM) as (rec & Hit & Hm & Hr).
    rewrite positive_nat_Z in Hm, Hr.
    exists rec. unfold shr. rewrite iter_pos_nat, Hit. auto.
Qed.

Lemma Zdigits2_bounds M :
  0 < M -> 1 <= Zdigits2 M /\ 2 ^ (Zdigits2 M - 1) <= M < 2 ^ Zdigits2 M.
Proof.
  destruct M as [|p|p]; try lia. intros _. simpl Zdigits2.
  split; [lia | apply digits2_pos_bounds].
Qed.

Lemma Zdigits2_unique M k :
  0 < M -> 2 ^ (k - 1) <= M < 2 ^ k -> 1 <= k -> Zdigits2 M = k.
Proof.
  destruct M as [|p|p]; try lia. intros _. simpl Zdigits2.
  apply digits2_pos_unique.
Qed.

Lemma Zdigits2_mul_pow M j :
  0 < M -> 0 <= j -> Zdigits2 (M * 2 ^ j) = Zdigits2 M + j.
Proof.
  intros HM Hj. destruct (Zdigits2_bounds M HM) as [Hd [Hlo Hhi]].
  pose proof (pow2_pos j Hj).
  apply Zdigits2_unique; [nia | | lia].
  replace (Zdigits2 M + j - 1) with (Zdigits2 M - 1 + j) by lia.
  rewrite !Z.pow_add_r by lia. nia.
Qed.

Lemma div_pow_bounds M d k :
  2 ^ (d - 1) <= M < 2 ^ d -> 0 <= k < d ->
  2 ^ (d - k - 1) <= M / 2 ^ k < 2 ^ (d - k).
Proof.
  intros [Hlo Hhi] Hk. pose proof (pow2_pos k ltac:(lia)).
  split.
  - apply Z.div_le_lower_bound; [lia|].
    rewrite <- Z.pow_add_r by lia. replace (k + (d - k - 1)) with (d - 1) by lia. exact Hlo.
  - apply Z.div_lt_upper_bound; [lia|].
    rewrite <- Z.pow_add_r by lia. replace (k + (d - k)) with d by lia. exact Hhi.
Qed.

Lemma rnd_up_b2z M k : 0 <= Z.b2z (rnd_up M k) <= 1.
Proof. destruct (rnd_up M k); simpl; lia. Qed.

Lemma rnd_q_scale M k j :
  0 <= k -> 0 <= j -> rnd_q (M * 2 ^ j) (k + j) = rnd_q M k.
Proof.
  intros Hk Hj. unfold rnd_q, rnd_up.
  pose proof (pow2_pos k Hk) as Pk. pose proof (pow2_pos j Hj) as Pj.
  rewrite Z.pow_add_r by lia.
  rewrite Z.div_mul_cancel_r by lia.
  rewrite Z.mul_mod_distr_r by lia.
  set (r := M mod 2 ^ k).
  replace (2 ^ k * 2 ^ j <? 2 * (r * 2 ^ j)) with (2 ^ k <? 2 * r).
  2:{ destruct (Z.ltb_spec (2 ^ k) (2 * r)), (Z.ltb_spec (2 ^ k * 2 ^ j) (2 * (r * 2 ^ j)));
      try reflexivity; nia. }
  replace (2 ^ k * 2 ^ j =? 2 * (r * 2 ^ j)) with (2 ^ k =? 2 * r).
  2:{ destruct (Z.eqb_spec (2 ^ k) (2 * r)), (Z.eqb_spec (2 ^ k * 2 ^ j) (2 * (r * 2 ^ j)));
      try reflexivity; nia. }
  reflexivity.
Qed.

Lemma rnd_q_exact m j : 0 <= j -> rnd_q (m * 2 ^ j) j = m.
Proof.
  intros Hj. rewrite <- (rnd_q_0 m) at 2.
  apply (rnd_q_scale m 0 j); lia.
Qed.

Lemma rnd_q_mono M M' k : 0 <= k -> M <= M' -> rnd_q M k <= rnd_q M' k.
Proof.
  intros Hk HM. unfold rnd_q, rnd_up.
  pose proof (pow2_pos k Hk) as Pk.
  pose proof (Z.div_mod M (2 ^ k) ltac:(lia)) as E.
  pose proof (Z.div_mod M' (2 ^ k) ltac:(lia)) as E'.
  pose proof (Z.mod_pos_bound M (2 ^ k) Pk) as B.
  pose proof (Z.mod_pos_bound M' (2 ^ k) Pk) as B'.
  pose proof (Z.div_le_mono M M' (2 ^ k) Pk HM) as Q.
  set (q := M / 2 ^ k) in *. set (q' := M' / 2 ^ k) in *.
  set (r := M mod 2 ^ k) in *. set (r' := M' mod 2 ^ k) in *.
  destruct (Z.eq_dec q q') as [Hq|Hq].
  - rewrite <- Hq. assert (r <= r') by nia.
    destruct (Z.ltb_spec (2 ^ k) (2 * r)), (Z.ltb_spec (2 ^ k) (2 * r'));
      destruct (Z.eqb_spec (2 ^ k) (2 * r)), (Z.eqb_spec (2 ^ k) (2 * r'));
      destruct (Z.odd q); simpl; lia.
  - assert (q + 1 <= q') by lia.
    match goal with |- _ + Z.b2z ?a <= _ + Z.b2z ?b => destruct a, b end; simpl; lia.
Qed.

Lemma rnd_q_bounds M k : 0 <= k -> M / 2 ^ k <= rnd_q M k <= M / 2 ^ k + 1.
Proof. intros _. unfold rnd_q. pose proof (rnd_up_b2z M k). lia. Qed.

Lemma Zdigits2_mono S S' : 0 < S -> S <= S' -> Zdigits2 S <= Zdigits2 S'.
Proof.
  intros H0 H.
  destruct (Zdigits2_bounds S H0) as [H1 [H2 H3]].
  destruct (Zdigits2_bounds S' ltac:(lia)) as [H1' [H2' H3']].
  destruct (Z.le_gt_cases (Zdigits2 S) (Zdigits2 S')) as [|Hlt]; [assumption|].
  exfalso.
  assert (2 ^ Zdigits2 S' <= 2 ^ (Zdigits2 S - 1)) by (apply pow2_le; lia).
  lia.
Qed.

Lemma RNE_0 : RNE 0 = 0.
Proof. reflexivity. Qed.

Lemma RNE_upper S : 0 < S -> RNE S <= 2 ^ Z.max (Zdigits2 S) 24.
Proof.
  intros H0. destruct (Zdigits2_bounds S H0) as [H1 [H2 H3]].
  unfold RNE, grid.
  destruct (Z.max_spec (Zdigits2 S - 24) 0) as [[Hc ->]|[Hc ->]].
  - rewrite rnd_q_0, Z.pow_0_r, Z.mul_1_r.
    assert (2 ^ Zdigits2 S <= 2 ^ Z.max (Zdigits2 S) 24) by (apply pow2_le; lia). lia.
  - set (n := Zdigits2 S - 24) in *.
    pose proof (div_pow_bounds S (Zdigits2 S) n (conj H2 H3) ltac:(lia)) as [_ Hq].
    replace (Zdigits2 S - n) with 24 in Hq by lia.
    pose proof (rnd_q_bounds S n ltac:(lia)).
    pose proof (pow2_pos n ltac:(lia)).
    replace (Z.max (Zdigits2 S) 24) with (24 + n) by lia.
    rewrite Z.pow_add_r by lia. nia.
Qed.

Lemma RNE_lower S : 0 < S -> 2 ^ (Zdigits2 S - 1) <= RNE S.
Proof.
  intros H0. destruct (Zdigits2_bounds S H0) as [H1 [H2 H3]].
  unfold RNE, grid.
  destruct (Z.max_spec (Zdigits2 S - 24) 0) as [[Hc ->]|[Hc ->]].
  - rewrite rnd_q_0, Z.pow_0_r, Z.mul_1_r. lia.
  - set (n := Zdigits2 S - 24) in *.
    pose proof (div_pow_bounds S (Zdigits2 S) n (conj H2 H3) ltac:(lia)) as [Hq _].
    replace (Zdigits2 S - n - 1) with 23 in Hq by lia.
    pose proof (rnd_q_bounds S n ltac:(lia)).
    pose proof (pow2_pos n ltac:(lia)).
    replace (Zdigits2 S - 1) with (23 + n) by lia.
    rewrite Z.pow_add_r by lia. nia.
Qed.

Lemma RNE_mono S S' : 0 <= S -> S <= S' -> RNE S <= RNE S'.
Proof.
  intros H0 H.
  assert (S = 0 \/ 0 < S) as [->|Hpos] by lia.
  - rewrite RNE_0.
    assert (S' = 0 \/ 0 < S') as [->|Hpos'] by lia; [rewrite RNE_0; lia|].
    pose proof (RNE_lower S' Hpos').
    destruct (Zdigits2_bounds S' Hpos') as [Hd1 _].
    pose proof (pow2_pos (Zdigits2 S' - 1) ltac:(lia)). lia.
  - pose proof (Zdigits2_mono S S' Hpos H) as Hd.
    destruct (Zdigits2_bounds S Hpos) as [H1 _].
    destruct (Z.eq_dec (grid S) (grid S')) as [Hg|Hg].
    + unfold RNE. rewrite <- Hg.
      assert (0 <= grid S) by (unfold grid; lia).
      pose proof (rnd_q_mono S S' (grid S) ltac:(lia) H).
      pose proof (pow2_pos (grid S) ltac:(lia)). nia.
    + assert (24 < Zdigits2 S' /\ Zdigits2 S < Zdigits2 S') as [Hb Hlt]
        by (unfold grid in Hg; lia).
      pose proof (RNE_upper S Hpos). pose proof (RNE_lower S' ltac:(lia)).
      assert (2 ^ Z.max (Zdigits2 S) 24 <= 2 ^ (Zdigits2 S' - 1)) by (apply pow2_le; lia).
      lia.
Qed.

Lemma canonical_digits m e :
  0 < m -> -149 <= e -> fexp prec32 emax32 (Zdigits2 m + e) = e ->
  m < 2 ^ 24 /\ (-149 < e -> 2 ^ 23 <= m).
Proof.
  intros Hm He Hc. rewrite fexp32 in Hc.
  destruct (Zdigits2_bounds m Hm) as [H1 [H2 H3]].
  split.
  - assert (2 ^ Zdigits2 m <= 2 ^ 24) by (apply pow2_le; lia). lia.
  - intros Hlt. replace (Zdigits2 m) with 24 in H2 by lia. exact H2.
Qed.

Lemma pack_units m e :
  0 < m -> -149 <= e -> fexp prec32 emax32 (Zdigits2 m + e) = e ->
  nonneg (pack m e) = true /\ uval (pack m e) = Z.min (m * 2 ^ (e + 149)) (2 ^ 277).
Proof.
  intros Hm He Hc. destruct (canonical_digits m e Hm He Hc) as [Hhi Hlo].
  destruct m as [|p|p]; try lia. unfold pack.
  change (emax32 - prec32) with 104.
  destruct (Z.leb_spec e 104) as [Hle|Hgt].
  - split.
    + unfold nonneg. simpl. unfold bounded, canonical_mantissa.
      simpl Zdigits2 in Hc. rewrite Hc, Z.eqb_refl. simpl.
      change (emax32 - prec32) with 104.
      destruct (Z.leb_spec e 104); [reflexivity | lia].
    + simpl uval.
      assert (2 ^ (e + 149) <= 2 ^ 253) by (apply pow2_le; lia).
      pose proof (pow2_pos (e + 149) ltac:(lia)).
      change (2 ^ 277) with (2 ^ 24 * 2 ^ 253). nia.
  - split; [reflexivity|]. simpl uval.
    specialize (Hlo ltac:(lia)).
    assert (2 ^ 254 <= 2 ^ (e + 149)) by (apply pow2_le; lia).
    change (2 ^ 277) with (2 ^ 23 * 2 ^ 254). nia.
Qed.

Lemma binary_round_aux_units (Mz ez : Z) :
  0 < Mz -> -149 <= ez ->
  ez <= fexp prec32 emax32 (Zdigits2 Mz + ez) ->
  nonneg (binary_round_aux prec32 emax32 false Mz ez loc_Exact) = true /\
  uval (binary_round_aux prec32 emax32 false Mz ez loc_Exact) =
  Z.min (RNE (Mz * 2 ^ (ez + 149))) (2 ^ 277).
Proof.
  intros HM He Hfe.
  destruct (Zdigits2_bounds Mz HM) as [Hd1 [Hd2 Hd3]].
  set (d := Zdigits2 Mz) in *.
  set (e1 := fexp prec32 emax32 (d + ez)) in *.
  assert (He1 : e1 = Z.max (d + ez - 24) (-149)) by (unfold e1; apply fexp32).
  set (n := e1 - ez).
  assert (Hn : 0 <= n) by (unfold n; lia).
  assert (HS : RNE (Mz * 2 ^ (ez + 149)) = rnd_q Mz n * 2 ^ (e1 + 149)).
  { unfold RNE, grid. rewrite Zdigits2_mul_pow by lia. fold d.
    replace (Z.max (d + (ez + 149) - 24) 0) with (n + (ez + 149)) by (unfold n; lia).
    rewrite rnd_q_scale by lia. f_equal. f_equal. unfold n. lia. }
  unfold binary_round_aux, shr_fexp. fold d. fold e1. fold n.
  change (shr_record_of_loc Mz loc_Exact)
    with {| shr_m := Mz; shr_r := false; shr_s := false |}.
  destruct (shr_spec Mz ez n ltac:(lia) Hn) as (rec & E1 & Em & Er).
  rewrite E1, Er.
  set (m1 := rnd_q Mz n) in *.
  replace (ez + n) with e1 by (unfold n; lia).
  assert (Hm1 : 0 < m1 /\ (0 < n -> 2 ^ 23 <= m1 <= 2 ^ 24) /\ (n = 0 -> m1 = Mz)).
  { pose proof (rnd_q_bounds Mz n Hn) as Hb. fold m1 in Hb.
    assert (n = 0 \/ 0 < n) as [Hz|Hp] by lia.
    - unfold m1. rewrite Hz, rnd_q_0. repeat split; lia.
    - assert (Hnd : n = d - 24) by (unfold n; lia).
      pose proof (div_pow_bounds Mz d n (conj Hd2 Hd3) ltac:(lia)) as [Hq1 Hq2].
      replace (d - n - 1) with 23 in Hq1 by lia.
      replace (d - n) with 24 in Hq2 by lia.
      assert (0 < 2 ^ 23) by (apply pow2_pos; lia).
      repeat split; lia. }
  destruct Hm1 as (Hm1 & Hm1n & Hm10).
  change (shr_record_of_loc m1 loc_Exact)
    with {| shr_m := m1; shr_r := false; shr_s := false |}.
  set (n2 := fexp prec32 emax32 (Zdigits2 m1 + e1) - e1).
  assert (Hcases : (n2 = 0 /\ fexp prec32 emax32 (Zdigits2 m1 + e1) = e1) \/
                   (n2 = 1 /\ m1 = 2 ^ 24 /\ -149 < e1)).
  { assert (n = 0 \/ 0 < n) as [Hz|Hp] by lia.
    - left. unfold n2. rewrite (Hm10 Hz). fold d. rewrite fexp32.
      unfold n in Hz. lia.
    - specialize (Hm1n Hp).
      assert (m1 < 2 ^ 24 \/ m1 = 2 ^ 24) as [Hlt|Heq] by lia.
      + left. assert (Zdigits2 m1 = 24) as Hd by (apply Zdigits2_unique; simpl; lia).
        unfold n2. rewrite Hd, fexp32. unfold n in Hp. lia.
      + right. unfold n2. rewrite Heq. change (Zdigits2 (2 ^ 24)) with 25.
        rewrite fexp32. unfold n in Hp. lia. }
  destruct (shr_spec m1 e1 n2 ltac:(lia) ltac:(lia)) as (rec2 & E2 & Em2 & _).
  rewrite E2.
  change (match shr_m rec2 with
          | 0 => S754_zero false
          | Z.pos m => if e1 + n2 <=? emax32 - prec32
                       then S754_finite false m (e1 + n2) else S754_infinity false
          | Z.neg _ => S754_nan
          end) with (pack (shr_m rec2) (e1 + n2)).
  rewrite Em2, HS.
  destruct Hcases as [[Hn2 Hc]|(Hn2 & Hm & Hlt)].
  - rewrite Hn2, Z.pow_0_r, Z.div_1_r, Z.add_0_r.
    apply pack_units; lia.
  - rewrite Hn2, Hm. change (2 ^ 24 / 2 ^ 1) with (2 ^ 23).
    replace (2 ^ 24 * 2 ^ (e1 + 149)) with (2 ^ 23 * 2 ^ (e1 + 1 + 149)).
    2:{ replace (e1 + 1 + 149) with (1 + (e1 + 149)) by lia.
        rewrite Z.pow_add_r by lia. change (2 ^ 24) with (2 ^ 23 * 2 ^ 1). ring. }
    apply pack_units.
    + apply pow2_pos; lia.
    + lia.
    + change (Zdigits2 (2 ^ 23)) with 24. rewrite fexp32. lia.
Qed.

Lemma shl_align_spec m e e' :
  snd (shl_align m e e') = Z.min e e' /\
  Z.pos (fst (shl_align m e e')) = Z.pos m * 2 ^ (e - Z.min e e').
Proof.
  unfold shl_align. destruct (e' - e) as [|p|p] eqn:E; simpl fst; simpl snd.
  - replace (Z.min e e') with e by lia. rewrite Z.sub_diag. split; lia.
  - replace (Z.min e e') with e by lia. rewrite Z.sub_diag. split; lia.
  - replace (Z.min e e') with e' by lia. split; [reflexivity|].
    replace (e - e') with (Z.pos p) by lia.
    change (Pos.iter xO m p) with (shift_pos p m).
    rewrite shift_pos_correct. change (Z.pow_pos 2 p) with (2 ^ Z.pos p). lia.
Qed.

Lemma binary_round_units (M : positive) (e : Z) :
  -149 <= e ->
  nonneg (binary_round prec32 emax32 false M e) = true /\
  uval (binary_round prec32 emax32 false M e) =
  Z.min (RNE (Z.pos M * 2 ^ (e + 149))) (2 ^ 277).
Proof.
  intros He. unfold binary_round.
  set (e1 := fexp prec32 emax32 (Z.pos (digits2_pos M) + e)).
  assert (He1 : -149 <= e1) by (unfold e1; rewrite fexp32; lia).
  destruct (shl_align_spec M e e1) as [Hs Hf].
  destruct (shl_align M e e1) as [mz ez]. simpl in Hs, Hf. subst ez.
  assert (Hd : Zdigits2 (Z.pos mz) + Z.min e e1 = Z.pos (digits2_pos M) + e).
  { rewrite Hf, Zdigits2_mul_pow by lia. simpl Zdigits2. lia. }
  replace (Z.pos M * 2 ^ (e + 149)) with (Z.pos mz * 2 ^ (Z.min e e1 + 149)).
  2:{ rewrite Hf, <- Z.mul_assoc, <- Z.pow_add_r by lia. f_equal. f_equal. lia. }
  apply binary_round_aux_units; [lia | lia |].
  rewrite Hd. fold e1. lia.
Qed.

Lemma bounded_units m e :
  bounded prec32 emax32 m e = true ->
  -149 <= e <= 104 /\ Z.pos m < 2 ^ 24 /\ (-149 < e -> 2 ^ 23 <= Z.pos m) /\
  RNE (Z.pos m * 2 ^ (e + 149)) = Z.pos m * 2 ^ (e + 149) /\
  0 < Z.pos m * 2 ^ (e + 149) < 2 ^ 277.
Proof.
  unfold bounded, canonical_mantissa. intros [Hc Hb]%andb_prop.
  apply Z.eqb_eq in Hc. apply Z.leb_le in Hb. change (emax32 - prec32) with 104 in Hb.
  assert (He : -149 <= e) by (rewrite fexp32 in Hc; lia).
  destruct (canonical_digits (Z.pos m) e ltac:(lia) He Hc) as [Hhi Hlo].
  pose proof (pow2_pos (e + 149) ltac:(lia)) as Hp.
  repeat split; try lia; try assumption.
  - unfold RNE, grid. rewrite Zdigits2_mul_pow by lia. simpl Zdigits2.
    rewrite fexp32 in Hc.
    replace (Z.max (Z.pos (digits2_pos m) + (e + 149) - 24) 0) with (e + 149) by lia.
    rewrite rnd_q_exact by lia. reflexivity.
  - assert (2 ^ (e + 149) <= 2 ^ 253) by (apply pow2_le; lia).
    change (2 ^ 277) with (2 ^ 24 * 2 ^ 253). nia.
Qed.

Lemma nonneg_cases x :
  nonneg x = true ->
  (exists s, x = S754_zero s) \/ x = S754_infinity false \/
  (exists m e, x = S754_finite false m e /\ bounded prec32 emax32 m e = true).
Proof.
  unfold nonneg. intros [Hv Hn]%andb_prop.
  destruct x as [s|[]| |[] m e]; simpl in *; try discriminate; eauto 6.
Qed.

Lemma RNE_top : RNE (2 ^ 277) = 2 ^ 277.
Proof. vm_compute. reflexivity. Qed.

Lemma nonneg_uval x :
  nonneg x = true -> 0 <= uval x <= 2 ^ 277 /\ RNE (uval x) = uval x.
Proof.
  intros [[s ->]|[->|(m & e & -> & Hb)]]%nonneg_cases; simpl uval.
  - split; [|reflexivity]. assert (0 < 2 ^ 277) by (apply pow2_pos; lia). lia.
  - split; [|apply RNE_top]. assert (0 < 2 ^ 277) by (apply pow2_pos; lia). lia.
  - destruct (bounded_units m e Hb) as (_ & _ & _ & HR & Hlt). split; [lia | exact HR].
Qed.

(** On valid non-negative values the order of binary32 is the order of
    the values. *)
Lemma SFleb_units x y :
  nonneg x = true -> nonneg y = true ->
  SFleb x y = true <-> uval x <= uval y.
Proof.
  intros Hx Hy. pose proof (nonneg_uval y Hy) as [Hy1 _].
  pose proof (nonneg_uval x Hx) as [Hx1 _].
  apply nonneg_cases in Hx as [[s ->]|[->|(m & e & -> & Hb)]];
  apply nonneg_cases in Hy as [[s' ->]|[->|(m' & e' & -> & Hb')]];
    simpl uval in *; unfold SFleb; simpl SFcompare;
    try (split; [intros _; lia | reflexivity]).
  - assert (0 < 2 ^ 277) by (apply pow2_pos; lia).
    split; [discriminate | lia].
  - destruct (bounded_units m' e' Hb') as (_ & _ & _ & _ & Hlt).
    split; [discriminate | lia].
  - destruct (bounded_units m e Hb) as (_ & _ & _ & _ & Hlt).
    split; [discriminate | lia].
  - destruct (bounded_units m e Hb) as (He & Hhi & Hlo & _ & _).
    destruct (bounded_units m' e' Hb') as (He' & Hhi' & Hlo' & _ & _).
    pose proof (pow2_pos (e + 149) ltac:(lia)) as Hp.
    pose proof (pow2_pos (e' + 149) ltac:(lia)) as Hp'.
    destruct (Z.compare_spec e e') as [->|Hlt|Hgt].
    + change (Pos.compare_cont Eq m m') with (Pos.compare m m').
      destruct (Pos.compare_spec m m') as [->|Hm|Hm];
        (split; [intros H; try discriminate; nia | intros H; try reflexivity; exfalso; nia]).
    + split; [intros _ | reflexivity].
      specialize (Hlo' ltac:(lia)).
      assert (2 ^ (e + 149 + 1) <= 2 ^ (e' + 149)) by (apply pow2_le; lia).
      rewrite Z.pow_add_r in * by lia. change (2 ^ 1) with 2 in *.
      change (2 ^ 24) with (2 * 2 ^ 23) in *. nia.
    + split; [discriminate | intros H; exfalso].
      specialize (Hlo ltac:(lia)).
      assert (2 ^ (e' + 149 + 1) <= 2 ^ (e + 149)) by (apply pow2_le; lia).
      rewrite Z.pow_add_r in * by lia. change (2 ^ 1) with 2 in *.
      change (2 ^ 24) with (2 * 2 ^ 23) in *. nia.
Qed.

(** Addition of valid non-negative values: the exact sum of the values,
    rounded to nearest even, infinity from [2 ^ 128] on. *)
Lemma SFadd_units x y :
  nonneg x = true -> nonneg y = true ->
  nonneg (SFadd prec32 emax32 x y) = true /\
  uval (SFadd prec32 emax32 x y) = Z.min (RNE (uval x + uval y)) (2 ^ 277).
Proof.
  intros Hx Hy.
  pose proof (nonneg_uval x Hx) as [Hx1 Hx2].
  pose proof (nonneg_uval y Hy) as [Hy1 Hy2].
  assert (Htop : forall a, 2 ^ 277 <= a -> Z.min (RNE a) (2 ^ 277) = 2 ^ 277).
  { intros a Ha. pose proof (RNE_mono (2 ^ 277) a ltac:(lia) Ha) as H.
    rewrite RNE_top in H. lia. }
  pose proof Hx as Hx'. pose proof Hy as Hy'.
  apply nonneg_cases in Hx' as [[s ->]|[->|(m & e & -> & Hb)]];
  apply nonneg_cases in Hy' as [[s' ->]|[->|(m' & e' & -> & Hb')]];
    simpl uval in *.
  - split; [destruct s, s'; reflexivity|]. destruct s, s'; reflexivity.
  - split; [destruct s; exact Hy|]. destruct s; simpl; rewrite Htop; simpl; lia.
  - split; [destruct s; exact Hy|]. destruct s; simpl SFadd; simpl uval.
    all: rewrite Z.add_0_l, Hy2; lia.
  - split; [destruct s'; exact Hx|]. destruct s'; simpl; rewrite Htop; simpl; lia.
  - split; [exact Hx|]. simpl. rewrite Htop; lia.
  - split; [reflexivity|]. simpl SFadd. simpl uval. rewrite Htop; lia.
  - split; [destruct s'; exact Hx|]. destruct s'; simpl SFadd; simpl uval;
      rewrite Z.add_0_r, Hx2; lia.
  - split; [reflexivity|]. simpl SFadd. simpl uval. rewrite Htop; lia.
  - destruct (bounded_units m e Hb) as (He & _).
    destruct (bounded_units m' e' Hb') as (He' & _).
    unfold SFadd. simpl cond_Zopp.
    destruct (shl_align_spec m e (Z.min e e')) as [_ Hm].
    destruct (shl_align_spec m' e' (Z.min e e')) as [_ Hm'].
    replace (Z.min e (Z.min e e')) with (Z.min e e') in Hm by lia.
    replace (Z.min e' (Z.min e e')) with (Z.min e e') in Hm' by lia.
    set (p := fst (shl_align m e (Z.min e e'))) in *.
    set (q := fst (shl_align m' e' (Z.min e e'))) in *.
    change (Z.pos p + Z.pos q) with (Z.pos (p + q)).
    unfold binary_normalize.
    replace (Z.pos m * 2 ^ (e + 149) + Z.pos m' * 2 ^ (e' + 149))
      with (Z.pos (p + q) * 2 ^ (Z.min e e' + 149)).
    + apply binary_round_units. lia.
    + rewrite Pos2Z.inj_add, Hm, Hm', Z.mul_add_distr_r.
      rewrite <- !Z.mul_assoc, <- !Z.pow_add_r by lia.
      f_equal; f_equal; f_equal; lia.
Qed.

Lemma nonneg_zero : nonneg (S754_zero false) = true.
Proof. reflexivity. Qed.

Lemma nonneg_infinity : nonneg (S754_infinity false) = true.
Proof. reflexivity. Qed.

Lemma SFadd_nonneg x y :
  nonneg x = true -> nonneg y = true -> nonneg (SFadd prec32 emax32 x y) = true.
Proof. intros Hx Hy. apply SFadd_units; assumption. Qed.

Lemma SFadd_increasing x w :
  nonneg x = true -> nonneg w = true -> SFleb x (SFadd prec32 emax32 x w) = true.
Proof.
  intros Hx Hw. destruct (SFadd_units x w Hx Hw) as [Hg Hu].
  apply SFleb_units; [assumption..|]. rewrite Hu.
  destruct (nonneg_uval x Hx) as [Hx1 Hx2]. destruct (nonneg_uval w Hw) as [Hw1 _].
  pose proof (RNE_mono (uval x) (uval x + uval w) ltac:(lia) ltac:(lia)). lia.
Qed.

Lemma SFadd_monotone x y w :
  nonneg x = true -> nonneg y = true -> nonneg w = true ->
  SFleb x y = true ->
  SFleb (SFadd prec32 emax32 x w) (SFadd prec32 emax32 y w) = true.
Proof.
  intros Hx Hy Hw Hle. apply SFleb_units in Hle; [|assumption..].
  destruct (SFadd_units x w Hx Hw) as [Hg Hu].
  destruct (SFadd_units y w Hy Hw) as [Hg' Hu'].
  apply SFleb_units; [assumption..|]. rewrite Hu, Hu'.
  destruct (nonneg_uval x Hx) as [Hx1 _]. destruct (nonneg_uval w Hw) as [Hw1 _].
  pose proof (RNE_mono (uval x + uval w) (uval y + uval w) ltac:(lia) ltac:(lia)). lia.
Qed.

End Binary32.

(** ** The laws hold for binary32 *)

Lemma SFcompare_key (x y : float) :
  match float_key x, float_key y with
  | Some k, Some k' =>
      (SFcompare x y = Some Lt /\ key_lt k k') \/
      (SFcompare x y = Some Eq /\ k = k') \/
      (SFcompare x y = Some Gt /\ key_lt k' k)
  | _, _ => SFcompare x y = None
  end.
Proof.
  destruct x as [[]|[]| |[] m e], y as [[]|[]| |[] m' e']; simpl;
    try reflexivity; try (left; split; [reflexivity | lia]);
    try (right; left; split; reflexivity);
    try (right; right; split; [reflexivity | lia]).
  - change (Pos.compare_cont Eq m m') with (Pos.compare m m').
    destruct (Z.compare_spec e e') as [->|Hlt|Hgt];
      [destruct (Pos.compare_spec m m') as [->|Hm|Hm]|..]; simpl.
    + right; left. split; reflexivity.
    + right; right. split; [reflexivity | lia].
    + left. split; [reflexivity | lia].
    + right; right. split; [reflexivity | lia].
    + left. split; [reflexivity | lia].
  - change (Pos.compare_cont Eq m m') with (Pos.compare m m').
    destruct (Z.compare_spec e e') as [->|Hlt|Hgt];
      [destruct (Pos.compare_spec m m') as [->|Hm|Hm]|..]; simpl.
    + right; left. split; reflexivity.
    + left. split; [reflexivity | lia].
    + right; right. split; [reflexivity | lia].
    + left. split; [reflexivity | lia].
    + right; right. split; [reflexivity | lia].
Qed.

Lemma key_lt_irrefl k k' : key_lt k k' -> k = k' -> False.
Proof. destruct k as [[a b] c], k' as [[a' b'] c']. simpl. intros ? [=]. lia. Qed.

Lemma key_lt_asym k k' : key_lt k k' -> key_lt k' k -> False.
Proof. destruct k as [[a b] c], k' as [[a' b'] c']. simpl. lia. Qed.

Lemma SFleb_key (x y : float) :
  SFleb x y = true <->
  exists k k', float_key x = Some k /\ float_key y = Some k' /\ key_le k k'.
Proof.
  pose proof (SFcompare_key x y) as Hc. unfold SFleb.
  destruct (float_key x) as [k|], (float_key y) as [k'|];
    try (rewrite Hc; split; [discriminate | intros (? & ? & ? & ? & _); discriminate]).
  destruct k as [[a b] c], k' as [[a' b'] c'].
  destruct Hc as [[-> Hk]|[[-> Hk]|[-> Hk]]]; simpl in Hk; split;
    try discriminate; try reflexivity.
  - intros _. exists (a, b, c), (a', b', c'). simpl. repeat split. lia.
  - intros _. injection Hk as -> -> ->.
    exists (a', b', c'), (a', b', c'). simpl. repeat split. lia.
  - intros (k1 & k2 & [= <-] & [= <-] & Hle). simpl in Hle. lia.
Qed.

Lemma SFltb_key (x y : float) :
  SFltb x y = true <->
  exists k k', float_key x = Some k /\ float_key y = Some k' /\ key_lt k k'.
Proof.
  pose proof (SFcompare_key x y) as Hc. unfold SFltb.
  destruct (float_key x) as [k|], (float_key y) as [k'|];
    try (rewrite Hc; split; [discriminate | intros (? & ? & ? & ? & _); discriminate]).
  destruct Hc as [[-> Hk]|[[-> Hk]|[-> Hk]]]; split;
    try discriminate; try reflexivity.
  - intros _. exists k, k'. auto.
  - intros (k1 & k2 & [= <-] & [= <-] & Hlt).
    exfalso. eapply key_lt_irrefl; eassumption.
  - intros (k1 & k2 & [= <-] & [= <-] & Hlt).
    exfalso. eapply key_lt_asym; eassumption.
Qed.

Lemma SFeqb_key (x y : float) :
  SFeqb x y = true <->
  exists k, float_key x = Some k /\ float_key y = Some k.
Proof.
  pose proof (SFcompare_key x y) as Hc. unfold SFeqb.
  destruct (float_key x) as [k|], (float_key y) as [k'|];
    try (rewrite Hc; split; [discriminate | intros (? & ? & ?); discriminate]).
  destruct Hc as [[-> Hk]|[[-> Hk]|[-> Hk]]]; split;
    try discriminate; try reflexivity.
  - intros (k1 & [= <-] & [= <-]). exfalso. eapply key_lt_irrefl; eauto.
  - intros _. exists k. subst. auto.
  - intros (k1 & [= <-] & [= <-]). exfalso. eapply key_lt_irrefl; eauto.
Qed.

Lemma key_le_refl k : key_le k k.
Proof. destruct k as [[a b] c]. simpl. lia. Qed.

Lemma key_le_trans k1 k2 k3 : key_le k1 k2 -> key_le k2 k3 -> key_le k1 k3.
Proof. destruct k1 as [[a b] c], k2 as [[a' b'] c'], k3 as [[a2 b2] c2]. simpl. lia. Qed.

Lemma key_lt_or_le k k' : key_lt k k' \/ key_le k' k.
Proof. destruct k as [[a b] c], k' as [[a' b'] c']. simpl. lia. Qed.

Lemma key_lt_not_le k k' : key_lt k k' -> key_le k' k -> False.
Proof. destruct k as [[a b] c], k' as [[a' b'] c']. simpl. lia. Qed.

Lemma float_key_top x k : float_key x = Some k -> key_le k (2, 0, 0)%Z.
Proof.
  destruct x as [[]|[]| |[] m e]; intros [= <-]; simpl; lia.
Qed.

Lemma SFleb_refl_key x : SFleb x x = true <-> exists k, float_key x = Some k.
Proof.
  rewrite SFleb_key. split.
  - intros (k & _ & Hk & _). eauto.
  - intros (k & Hk). exists k, k. auto using key_le_refl.
Qed.

#[export] Instance float_OrderLaws : OrderLaws float.
Proof.
  split; unfold num_le, num_lt, num_eq, num_zero, num_inf, float_Numeric.
  - reflexivity.
  - reflexivity.
  - intros x y (k & _ & Hk & _)%SFleb_key. apply SFleb_refl_key. eauto.
  - intros x y (_ & k & _ & Hk & _)%SFleb_key. apply SFleb_refl_key. eauto.
  - intros x (k & Hk)%SFleb_refl_key. apply SFleb_key.
    exists k, (2, 0, 0)%Z. eauto using float_key_top.
  - intros x y z (k1 & k2 & H1 & H2 & H12)%SFleb_key
                 (k2' & k3 & H2' & H3 & H23)%SFleb_key.
    assert (k2' = k2) as -> by congruence.
    apply SFleb_key. exists k1, k3. eauto using key_le_trans.
  - intros x y (k & Hk)%SFleb_refl_key (k' & Hk')%SFleb_refl_key.
    destruct (key_lt_or_le k' k) as [Hlt|Hle].
    + right. apply SFleb_key. exists k', k. repeat split; auto.
      destruct k as [[a b] c], k' as [[a' b'] c']. simpl in *. lia.
    + left. apply SFleb_key. exists k, k'. auto.
  - intros x y (k & _ & Hk & _)%SFltb_key. apply SFleb_refl_key. eauto.
  - intros x y (k & Hk)%SFleb_refl_key (k' & Hk')%SFleb_refl_key.
    destruct (SFltb x y) eqn:Hlt, (SFleb y x) eqn:Hle; try reflexivity; exfalso.
    + apply SFltb_key in Hlt as (k1 & k2 & H1 & H2 & H12).
      apply SFleb_key in Hle as (k2' & k1' & H2' & H1' & H21).
      assert (k1' = k1) as -> by congruence.
      assert (k2' = k2) as -> by congruence.
      eapply key_lt_not_le; eassumption.
    + destruct (key_lt_or_le k k') as [H1|H1].
      * assert (SFltb x y = true) by (apply SFltb_key; eauto). congruence.
      * assert (SFleb y x = true) by (apply SFleb_key; eauto). congruence.
  - intros x y (k & Hx & Hy)%SFeqb_key. apply SFleb_key.
    exists k, k. auto using key_le_refl.
  - reflexivity.
  - intros [[]|[]| |[] m e]; simpl; try discriminate; reflexivity.
Qed.

#[export] Instance float_NonnegLaws : NonnegLaws float nonneg.
Proof.
  split; unfold num_le, num_add, num_zero, num_inf, float_Numeric.
  - reflexivity.
  - reflexivity.
  - intros x [_ Hx]%andb_prop. exact Hx.
  - apply SFadd_nonneg.
  - apply SFadd_increasing.
  - apply SFadd_monotone.
Qed.

Lemma nonneg_matrix_weights (g : Matrix float) :
  nonneg_matrix g = true -> weights_in nonneg (engine g).
Proof.
  unfold nonneg_matrix, weights_in, entry. simpl. intros Hg u v w.
  rewrite forallb_forall in Hg.
  destruct (g !! u) as [row|] eqn:Hrow; [|discriminate].
  intros Hw. apply list_elem_of_lookup_2, list_elem_of_In in Hrow.
  apply list_elem_of_lookup_2, list_elem_of_In in Hw.
  specialize (Hg row Hrow). rewrite forallb_forall in Hg. exact (Hg w Hw).
Qed.

(** ** The concrete matrices *)

Lemma square_main_graph : square_matrix main_graph.
Proof. repeat constructor. Qed.

Lemma square_detour_graph : square_matrix detour_graph.
Proof. repeat constructor. Qed.

Lemma square_zero_graph : square_matrix zero_graph.
Proof. repeat constructor. Qed.

Lemma no_path_zero_graph p c : ~ path (engine zero_graph) 0 p 1 c.
Proof.
  intros (_ & Hend & Hc). destruct p as [|[|[|v]] p]; cbn in Hend, Hc;
    discriminate.
Qed.

Example detour_from_0 :
  run_from_vertex detour_graph 0 =
  Ret [float_of_Z 0; float_of_Z 3; float_of_Z 1].
Proof. vm_compute. reflexivity. Qed.

Example zero_from_0 :
  run_from_vertex zero_graph 0 = Ret [S754_zero false; S754_infinity false].
Proof. vm_compute. reflexivity. Qed.

(** With the distances [0, 1, 1] the second round selects the vertex 2,
    not the vertex 1. *)
Example tie_selects_last :
  rounds 0 1 (engine tie_graph) =
    Ret (([float_of_Z 0; float_of_Z 1; float_of_Z 1], [true; false; false]),
         engine tie_graph) /\
  min_distance [float_of_Z 0; float_of_Z 1; float_of_Z 1]
    [true; false; false] (engine tie_graph) =
    Ret (2, engine tie_graph).
Proof. split; vm_compute; reflexivity. Qed.

(** ** The properties of the specification *)

(** C1, as the code computes it.  For a square binary32 matrix without
    negative entries (and without NaN) and a source in range, the entry
    [d] of [v] in the returned vector is the minimum of the costs of the
    paths from the source to [v] over nonzero entries, where the cost of
    a path is the sum of its weights as the code forms it: added in
    binary32 from the source on, each partial sum rounded to nearest and
    replaced by infinity when it overflows.  [d] is at most the cost of
    every such path and, when there is one, it is the cost of one; when
    there is none it is infinity. *)
Theorem from_vertex_shortest_paths (g : Matrix float) (source : Z)
  (v : nat) :
  square_matrix g -> nonneg_matrix g = true ->
  (0 <= source < Z.of_nat (length g))%Z -> v < length g ->
  exists dist d,
    run_from_vertex g source = Ret dist /\ dist !! v = Some d /\
    (forall p c, path (engine g) (Z.to_nat source) p v c ->
                 SFleb d c = true) /\
    (forall p c, path (engine g) (Z.to_nat source) p v c ->
                 exists p', path (engine g) (Z.to_nat source) p' v d) /\
    ((forall p c, ~ path (engine g) (Z.to_nat source) p v c) ->
     d = S754_infinity false).
Proof.
  intros Hg Hnn%nonneg_matrix_weights Hsrc Hv.
  destruct (run_returns g source (fun dist =>
              length dist = length g /\
              forall v d, dist !! v = Some d ->
                (d = num_inf \/ walk (engine g) (Z.to_nat source) v d) /\
                forall c, walk (engine g) (Z.to_nat source) v c ->
                          num_le d c = true))
    as (dist & Hrun & Hlen & Hall).
  { eapply returns_weaken.
    - apply from_vertex_rounds, (rounds_shortest nonneg);
        [apply square_engine, Hg | exact Hnn | exact Hsrc].
    - intros dist [proc HQ]. exact HQ. }
  destruct (lookup_lt_is_Some_2 dist v) as [d Hd]; [lia|].
  destruct (Hall v d Hd) as [Hreach Hlow].
  exists dist, d. split; [exact Hrun|]. split; [exact Hd|].
  split; [|split].
  - intros p c Hp. apply Hlow. exact (path_walk _ _ _ _ _ Hp).
  - intros p c Hp. destruct Hreach as [->|Hw]; [|apply walk_path, Hw].
    exists p.
    rewrite <- (inf_greatest c (Hlow c (path_walk _ _ _ _ _ Hp))).
    exact Hp.
  - intros Hno. destruct Hreach as [->|Hw]; [reflexivity|].
    destruct (walk_path _ _ _ _ Hw) as [p Hp]. destruct (Hno p d Hp).
Qed.

Lemma from_vertex_shortest_paths_witness :
  exists dist d,
    run_from_vertex detour_graph 0 = Ret dist /\ dist !! 1 = Some d /\
    (forall p c, path (engine detour_graph) (Z.to_nat 0) p 1 c ->
                 SFleb d c = true) /\
    (forall p c, path (engine detour_graph) (Z.to_nat 0) p 1 c ->
                 exists p', path (engine detour_graph) (Z.to_nat 0) p' 1 d) /\
    ((forall p c, ~ path (engine detour_graph) (Z.to_nat 0) p 1 c) ->
     d = S754_infinity false).
Proof.
  apply (from_vertex_shortest_paths detour_graph 0 1).
  - exact square_detour_graph.
  - reflexivity.
  - simpl. lia.
  - simpl. lia.
Defined.

(** C1 as stated fails for sums that are not rounded.  In
    [rounding_graph] no entry is negative and the only path from 0 to 2
    is 0, 1, 2 with the weights 16777216 and 1, whose sum is 16777217;
    the call returns 16777216 for the vertex 2.  Values are in units of
    [2 ^ -149]. *)
Lemma from_vertex_exact_sum_counterexample :
  square_matrix rounding_graph /\ nonneg_matrix rounding_graph = true /\
  run_from_vertex rounding_graph 0 =
    Ret [float_of_Z 0; float_of_Z 16777216; float_of_Z 16777216] /\
  uval (float_of_Z 16777216) = (16777216 * 2 ^ 149)%Z /\
  exact_cost (engine rounding_graph) 0 [1; 2] 0 =
    Some (16777217 * 2 ^ 149)%Z /\
  forall p c,
    path_end 0 p = 2 -> exact_cost (engine rounding_graph) 0 p 0 = Some c ->
    c = (16777217 * 2 ^ 149)%Z.
Proof.
  split; [repeat constructor|]. split; [reflexivity|].
  split; [vm_compute; reflexivity|]. split; [vm_compute; reflexivity|].
  split; [vm_compute; reflexivity|].
  intros p c Hend Hc.
  destruct p as [|[|[|[|v1]]] p]; try discriminate Hc; try discriminate Hend.
  destruct p as [|[|[|[|v2]]] p]; try discriminate Hc; try discriminate Hend.
  destruct p as [|[|[|[|v3]]] p]; try discriminate Hc.
  vm_compute in Hc. vm_compute. congruence.
Qed.

(** C2, as the code has it.  The code makes no range check and raises no
    condition: for a source outside [0, N) the call does not end in
    OutOfRange; its first use of [source], the write [dist[source] = 0]
    to the vector of [N] infinities that the initialisation loop leaves,
    is outside that vector, which is undefined behaviour. *)
Theorem from_vertex_source_unchecked {T : Type} `{Numeric T}
  (g : Matrix T) (source : Z) :
  ~ (0 <= source < Z.of_nat (length g))%Z ->
  run_from_vertex g source <> Raise OutOfRange /\
  initial (engine g) =
    Ret ((replicate (length g) num_inf, replicate (length g) false),
         engine g) /\
  vec_set_int (replicate (length g) num_inf) source num_zero (engine g) =
    Undefined OutOfBounds /\
  run_from_vertex g source = Undefined OutOfBounds.
Proof.
  intros Hsrc.
  assert (Hrun : run_from_vertex g source = Undefined OutOfBounds).
  { unfold run_from_vertex. rewrite engine_new.
    rewrite from_vertex_out_of_bounds; [reflexivity | exact Hsrc]. }
  split; [rewrite Hrun; discriminate|]. split; [apply initial_eq|].
  split; [|exact Hrun].
  unfold vec_set_int, vec_set, undefined.
  destruct (decide (0 <= source)%Z) as [Hpos|]; [|reflexivity].
  rewrite length_replicate.
  destruct (decide (Z.to_nat source < length g)); [lia | reflexivity].
Qed.

Lemma from_vertex_source_unchecked_witness :
  let g := [[float_of_Z 0; float_of_Z 1]; [float_of_Z 1; float_of_Z 0]] in
  run_from_vertex g (-1) <> Raise OutOfRange /\
  initial (engine g) =
    Ret ((replicate (length g) num_inf, replicate (length g) false),
         engine g) /\
  vec_set_int (replicate (length g) num_inf) (-1) num_zero (engine g) =
    Undefined OutOfBounds /\
  run_from_vertex g (-1) = Undefined OutOfBounds.
Proof. apply from_vertex_source_unchecked. simpl. lia. Defined.

(** C2 as stated fails: the source 1 is outside [0, 1) for a 1x1 matrix,
    and the call does not end in the OutOfRange condition; it reaches the
    write outside the vector. *)
Lemma from_vertex_out_of_range_counterexample :
  ~ (0 <= 1 < Z.of_nat (length [[float_of_Z 0]]))%Z /\
  run_from_vertex [[float_of_Z 0]] 1 <> Raise OutOfRange /\
  run_from_vertex [[float_of_Z 0]] 1 = Undefined OutOfBounds.
Proof.
  split; [simpl; lia|]. split; [|reflexivity].
  vm_compute. discriminate.
Qed.

(** C3, as the code has it.  The constructor has no failing path: for
    every matrix, square or not, it returns an object whose [size] is the
    row count and whose [graph] is the matrix. *)
Theorem Dijkstra_new_total {T : Type} (g : Matrix T) :
  exists this,
    Dijkstra_new g = Ret this /\ size this = length g /\ graph this = g.
Proof. exists (mkDijkstra (length g) g). repeat split. Qed.

(** C3 as stated fails: a 1x2 matrix is not square, and the constructor
    returns an object instead of the InvalidGraph condition. *)
Lemma Dijkstra_new_counterexample :
  ~ square_matrix [[float_of_Z 0; float_of_Z 1]] /\
  Dijkstra_new [[float_of_Z 0; float_of_Z 1]] <> Raise InvalidGraph /\
  Dijkstra_new [[float_of_Z 0; float_of_Z 1]] =
    Ret (mkDijkstra 1 [[float_of_Z 0; float_of_Z 1]]).
Proof.
  split; [|split; [discriminate | reflexivity]].
  unfold square_matrix. rewrite Forall_singleton. simpl. lia.
Qed.

Section Selection.
Context {T : Type} `{Numeric T} `{!OrderLaws T}.

(** C4.  In every round of the main loop [min_distance] returns the
    vertex [u] that the scan in index order with the [<=] update
    produces; [u] is unprocessed, its distance is least among the
    unprocessed vertices, and every unprocessed vertex whose distance ties
    with it has an index at most [u]: of the tied vertices the one scanned
    last is selected. *)
Theorem min_distance_last_minimum (g : Matrix T) (source : Z) (k : nat) :
  square_matrix g -> (0 <= source < Z.of_nat (length g))%Z ->
  k < length g - 1 ->
  exists dist proc u du,
    rounds source k (engine g) = Ret ((dist, proc), engine g) /\
    min_distance dist proc (engine g) = Ret (u, engine g) /\
    snd (scan_best dist proc (length g)) = Some u /\
    proc !! u = Some false /\ dist !! u = Some du /\
    forall v dv, proc !! v = Some false -> dist !! v = Some dv ->
      num_le du dv = true /\ (num_le dv du = true -> v <= u).
Proof.
  intros Hg Hsrc Hk.
  destruct (engine_rounds g source k Hg Hsrc) as ([dist proc] & Hr & Hinv);
    [lia|].
  pose proof Hinv as (Hld & Hlp & Hcnt & Hord & _).
  destruct (min_distance_spec (engine g) dist proc Hld Hlp Hord)
    as (u & Hu & Hpu & du & Hdu & Hmin).
  { apply count_true_unprocessed. simpl in Hlp. lia. }
  exists dist, proc, u, du. repeat (split; [assumption|]).
  split; [|auto].
  pose proof (min_distance_scan (engine g) dist proc Hld Hlp) as Hscan.
  rewrite Hu in Hscan. simpl in Hscan.
  destruct (snd (scan_best dist proc (length g))) as [u'|];
    [|discriminate].
  injection Hscan as ->. reflexivity.
Qed.

(** C5.  A vertex that no path over nonzero entries reaches from the
    source has the distance infinity after every round of the main loop
    and in the returned vector. *)
Theorem zero_entries_are_no_edges (g : Matrix T) (source : Z) (v : nat) :
  square_matrix g -> (0 <= source < Z.of_nat (length g))%Z ->
  v < length g ->
  (forall p c, ~ path (engine g) (Z.to_nat source) p v c) ->
  (forall k, k <= length g - 1 ->
     exists dist proc,
       rounds source k (engine g) = Ret ((dist, proc), engine g) /\
       dist !! v = Some num_inf) /\
  exists dist, run_from_vertex g source = Ret dist /\ dist !! v = Some num_inf.
Proof.
  intros Hg Hsrc Hv Hno.
  assert (Hinf : forall k st, basic_inv (engine g) (Z.to_nat source) k st ->
                   fst st !! v = Some num_inf).
  { intros k [dist proc] (Hld & _ & _ & _ & _ & _ & _ & Hreach). simpl.
    destruct (lookup_lt_is_Some_2 dist v) as [d Hd]; [simpl in Hld; lia|].
    destruct (Hreach v d Hd) as [->|Hw]; [exact Hd|].
    destruct (walk_path _ _ _ _ Hw) as [p Hp]. destruct (Hno p d Hp). }
  split.
  - intros k Hk.
    destruct (engine_rounds g source k Hg Hsrc Hk) as ([dist proc] & Hr & Hinv).
    exists dist, proc. split; [exact Hr | exact (Hinf k _ Hinv)].
  - apply run_returns. eapply returns_weaken.
    + apply from_vertex_rounds, (engine_rounds g source); auto.
    + intros dist [proc Hinv]. exact (Hinf _ _ Hinv).
Qed.

End Selection.

Lemma min_distance_last_minimum_witness :
  exists dist proc u du,
    rounds 0 1 (engine main_graph) = Ret ((dist, proc), engine main_graph) /\
    min_distance dist proc (engine main_graph) = Ret (u, engine main_graph) /\
    snd (scan_best dist proc (length main_graph)) = Some u /\
    proc !! u = Some false /\ dist !! u = Some du /\
    forall v dv, proc !! v = Some false -> dist !! v = Some dv ->
      num_le du dv = true /\ (num_le dv du = true -> v <= u).
Proof.
  apply (min_distance_last_minimum main_graph 0 1).
  - exact square_main_graph.
  - simpl. lia.
  - simpl. lia.
Defined.

Lemma zero_entries_are_no_edges_witness :
  (forall k, k <= length zero_graph - 1 ->
     exists dist proc,
       rounds 0 k (engine zero_graph) = Ret ((dist, proc), engine zero_graph) /\
       dist !! 1 = Some num_inf) /\
  exists dist,
    run_from_vertex zero_graph 0 = Ret dist /\ dist !! 1 = Some num_inf.
Proof.
  apply (zero_entries_are_no_edges zero_graph 0 1).
  - exact square_zero_graph.
  - simpl. lia.
  - simpl. lia.
  - exact no_path_zero_graph.
Defined.

(** C6, as the code has it.  From a 1x1 matrix, [from_vertex(0)] returns
    the vector [[0]].  From the empty matrix every source is out of range:
    the write [dist[source] = 0] is outside the empty vector, and no
    vector is returned. *)
Theorem from_vertex_boundary {T : Type} `{Numeric T} :
  (forall x : T, run_from_vertex [[x]] 0 = Ret [num_zero]) /\
  (forall source : Z, run_from_vertex (T:=T) [] source = Undefined OutOfBounds).
Proof.
  split.
  - intros x. reflexivity.
  - intros source. unfold run_from_vertex. rewrite engine_new.
    rewrite from_vertex_out_of_bounds; [reflexivity | simpl; lia].
Qed.

(** C6 as stated fails for the empty matrix: the call faults instead of
    returning the empty vector. *)
Lemma from_vertex_empty_counterexample :
  run_from_vertex (T:=float) [] 0 <> Ret [] /\
  run_from_vertex (T:=float) [] 0 = Undefined OutOfBounds.
Proof. split; [vm_compute; discriminate | reflexivity]. Qed.

Section Source.
Context {T : Type} `{Numeric T} `{!OrderLaws T}.

(** C7.  The entry of the source is [0] after the initialisation and
    after every round of the main loop, and it is [0] in the returned
    vector.  This needs no assumption on the weights: the source is the
    vertex the first round marks processed, and the relaxation loop never
    writes to a processed vertex. *)
Theorem source_distance_zero (g : Matrix T) (source : Z) :
  square_matrix g -> (0 <= source < Z.of_nat (length g))%Z ->
  (forall k, k <= length g - 1 ->
     exists dist proc,
       rounds source k (engine g) = Ret ((dist, proc), engine g) /\
       dist !! Z.to_nat source = Some num_zero) /\
  exists dist,
    run_from_vertex g source = Ret dist /\
    dist !! Z.to_nat source = Some num_zero.
Proof.
  intros Hg Hsrc. split.
  - intros k Hk.
    destruct (engine_rounds g source k Hg Hsrc Hk)
      as ([dist proc] & Hr & (_ & _ & _ & _ & Hds & _)).
    exists dist, proc. auto.
  - apply run_returns. eapply returns_weaken.
    + apply from_vertex_rounds, (engine_rounds g source); auto.
    + intros dist [proc (_ & _ & _ & _ & Hds & _)]. exact Hds.
Qed.

(** C8.  Whenever [from_vertex] returns, the fields of the object are as
    before the call; and for a square matrix and a source in range it
    does return, and a second call made after it returns the same
    vector. *)
Theorem from_vertex_leaves_object (this : Dijkstra T) (source : Z) :
  (forall dist this',
     from_vertex source this = Ret (dist, this') ->
     size this' = size this /\ graph this' = graph this) /\
  (square this -> (0 <= source < Z.of_nat (size this))%Z ->
   exists dist,
     from_vertex source this = Ret (dist, this) /\
     (let* first := from_vertex source in
      let* second := from_vertex source in
      ret (first, second)) this = Ret ((dist, dist), this)).
Proof.
  split.
  - intros dist this' Hr. apply readonly_from_vertex in Hr as ->. auto.
  - intros Hsq Hsrc.
    destruct (from_vertex_rounds this source _
                (rounds_basic this source (size this - 1) Hsq Hsrc
                   (Nat.le_refl _)))
      as (dist & Hr & _).
    exists dist. split; [exact Hr|].
    unfold bind. rewrite Hr, Hr. reflexivity.
Qed.

End Source.

Lemma source_distance_zero_witness :
  (forall k, k <= length main_graph - 1 ->
     exists dist proc,
       rounds 0 k (engine main_graph) = Ret ((dist, proc), engine main_graph) /\
       dist !! Z.to_nat 0 = Some num_zero) /\
  exists dist,
    run_from_vertex main_graph 0 = Ret dist /\
    dist !! Z.to_nat 0 = Some num_zero.
Proof.
  apply (source_distance_zero main_graph 0).
  - exact square_main_graph.
  - simpl. lia.
Defined.

Lemma from_vertex_leaves_object_witness :
  exists dist,
    from_vertex 0 (engine main_graph) = Ret (dist, engine main_graph) /\
    (let* first := from_vertex 0 in
     let* second := from_vertex 0 in
     ret (first, second)) (engine main_graph) =
      Ret ((dist, dist), engine main_graph).
Proof.
  apply (from_vertex_leaves_object (engine main_graph) 0).
  - apply square_engine, square_main_graph.
  - simpl. lia.
Defined.


(** C9.  For the matrix of [main] and the source 0, [from_vertex] returns
    the vector [0, -1, -2, 0], computed in binary32. *)
Theorem main_graph_from_0 :
  run_from_vertex main_graph 0 =
  Ret [float_of_Z 0; float_of_Z (-1); float_of_Z (-2); float_of_Z 0].
Proof. vm_compute. reflexivity. Qed.

Section Progress.
Context {T : Type} `{Numeric T} `{!OrderLaws T}.


End Progress.


(** * Part IV: further properties of the code *)

(** ** The rounds of the main loop, one after the other *)

Section Rounds.
Context {T : Type} `{Numeric T} `{!OrderLaws T}.
Implicit Types (dist : list T) (proc : list bool) (this : Dijkstra T).

Lemma for_loop_S {St : Type} n i (body : nat -> St -> M T St) s :
  for_loop (S n) i body s =
  (let* s' := body i s in for_loop n (S i) body s').
Proof. reflexivity. Qed.

(** A loop of [n + 1] rounds is a loop of [n] rounds and one more. *)
Lemma for_loop_S_end {St : Type} n :
  forall i (body : nat -> St -> M T St) s this,
    for_loop (S n) i body s this =
    bind (for_loop n i body s) (body (i + n)) this.
Proof.
  induction n as [|n IH]; intros i body s this.
  - simpl. unfold bind, ret. replace (i + 0) with i by lia.
    destruct (body i s this) as [[s' t]| |]; reflexivity.
  - rewrite for_loop_S. rewrite (for_loop_S n i body s).
    unfold bind at 1 2 3.
    destruct (body i s this) as [[s' t]| |]; try reflexivity.
    rewrite IH. replace (i + S n) with (S i + n) by lia. reflexivity.
Qed.

Lemma rounds_S (source : Z) k this :
  rounds source (S k) this = bind (rounds source k) round this.
Proof.
  unfold rounds. unfold bind at 1 2 3 4 5.
  destruct (initial this) as [[[dist proc] t]| |]; try reflexivity.
  destruct (vec_set_int dist source num_zero t) as [[dist' t']| |];
    try reflexivity.
  rewrite for_loop_S_end. reflexivity.
Qed.

(** Round [k + 1] of the main loop: the states before and after it. *)
Lemma rounds_step this (source : Z) k :
  square this -> (0 <= source < Z.of_nat (size this))%Z ->
  S k <= size this - 1 ->
  exists dist proc st',
    rounds source k this = Ret ((dist, proc), this) /\
    rounds source (S k) this = Ret (st', this) /\
    basic_inv this (Z.to_nat source) k (dist, proc) /\
    round_post this dist proc st' /\
    basic_inv this (Z.to_nat source) (S k) st'.
Proof.
  intros Hsq Hsrc Hk.
  destruct (rounds_basic this source k Hsq Hsrc) as ([dist proc] & Hr & Hinv);
    [lia|].
  pose proof Hinv as (Hld & Hlp & Hcnt & Hord & _).
  destruct (round_spec this dist proc Hsq Hld Hlp Hord) as (st' & Hst' & Hpost).
  { apply count_true_unprocessed. lia. }
  exists dist, proc, st'. split; [exact Hr|]. split.
  - rewrite rounds_S. unfold bind. rewrite Hr. exact Hst'.
  - split; [exact Hinv|]. split; [exact Hpost|].
    eapply basic_inv_step; eassumption.
Qed.
End Rounds.

(** ** What every call on a square matrix returns *)

Section AnyWeights.
Context {T : Type} `{Numeric T} `{!OrderLaws T}.
Implicit Types (dist : list T) (proc : list bool) (this : Dijkstra T).

Lemma settles_round this s j dist proc st' :
  square this -> basic_inv this s j (dist, proc) ->
  round_post this dist proc st' ->
  settles (dist, proc) st'.
Proof.
  intros Hsq (Hld & Hlp & _ & Hord & _) (u & du & Hsel & Hdu & Hproc & Hrel).
  destruct st' as [dist' proc']. simpl in Hproc, Hrel. subst proc'.
  destruct Hsel as (Hpu & _).
  assert (Hu : u < size this) by (apply lookup_lt_Some in Hdu; lia).
  assert (Hlp' : length (<[u:=true]> proc) = size this)
    by (rewrite length_insert; exact Hlp).
  split; simpl.
  - intros v Hpv.
    assert (Hpv' : <[u:=true]> proc !! v = Some true).
    { destruct (decide (u = v)) as [->|Hne]; [congruence|].
      rewrite list_lookup_insert_ne by exact Hne. exact Hpv. }
    split; [exact Hpv'|].
    assert (Hv : v < size this) by (apply lookup_lt_Some in Hpv; lia).
    destruct (vertex_data this dist (<[u:=true]> proc) u v)
      as (dv & pv & w & Hdv & Hpv2 & Hw); auto.
    destruct Hrel as (_ & _ & Hall).
    rewrite (Hall v pv w dv Hpv2 Hw Hdv), Hdv.
    assert (pv = true) as -> by congruence.
    destruct (decide (v < size this)); reflexivity.
  - intros v d d' Hd Hd'.
    destruct (relax_entry this u du (<[u:=true]> proc) dist dist' v d')
      as (dv & pv & w & Hdv & _ & _ & ->); auto.
    assert (dv = d) as -> by congruence.
    apply relaxed_le. exact (Hord v d Hd).
Qed.

Lemma settles_refl this s j st : basic_inv this s j st -> settles st st.
Proof.
  destruct st as [dist proc]. intros (_ & _ & _ & Hord & _). split; simpl.
  - auto.
  - intros v d d' Hd Hd'. assert (d' = d) as -> by congruence.
    exact (Hord v d Hd).
Qed.

Lemma settles_trans (st1 st2 st3 : list T * list bool) :
  length (fst st2) = length (fst st1) ->
  settles st1 st2 -> settles st2 st3 -> settles st1 st3.
Proof.
  intros Hlen [Hp12 Hd12] [Hp23 Hd23]. split.
  - intros v Hv. destruct (Hp12 v Hv) as [Hv2 He2].
    destruct (Hp23 v Hv2) as [Hv3 He3]. split; [exact Hv3 | congruence].
  - intros v d d3 Hd Hd3.
    destruct (lookup_lt_is_Some_2 (fst st2) v) as [d2 Hd2].
    { apply lookup_lt_Some in Hd. lia. }
    apply (le_trans _ d2); [exact (Hd23 v d2 d3 Hd2 Hd3)|].
    exact (Hd12 v d d2 Hd Hd2).
Qed.

Lemma rounds_settle this (source : Z) n :
  forall k,
    square this -> (0 <= source < Z.of_nat (size this))%Z ->
    k + n <= size this - 1 ->
    exists st st',
      rounds source k this = Ret (st, this) /\
      rounds source (k + n) this = Ret (st', this) /\
      basic_inv this (Z.to_nat source) (k + n) st' /\
      settles st st'.
Proof.
  induction n as [|n IH]; intros k Hsq Hsrc Hk.
  - destruct (rounds_basic this source k Hsq Hsrc) as (st & Hr & Hinv); [lia|].
    exists st, st. replace (k + 0) with k by lia.
    repeat (split; [assumption|]). eapply settles_refl, Hinv.
  - destruct (IH k Hsq Hsrc) as (st & st1 & Hr & Hr1 & Hinv1 & Hset); [lia|].
    destruct (rounds_step this source (k + n) Hsq Hsrc)
      as (dist & proc & st' & Hr1' & Hr' & _ & Hpost & Hinv'); [lia|].
    assert (st1 = (dist, proc)) as -> by congruence.
    exists st, st'. replace (k + S n) with (S (k + n)) by lia.
    repeat (split; [assumption|]).
    apply (settles_trans st (dist, proc) st'); [|exact Hset|].
    + destruct (rounds_basic this source k Hsq Hsrc) as (st0 & Hr0 & Hinv0);
        [lia|].
      assert (st0 = st) as -> by congruence.
      destruct st as [dist0 proc0].
      destruct Hinv0 as (Hl0 & _), Hinv1 as (Hl1 & _). simpl. congruence.
    + eapply settles_round; eassumption.
Qed.

(** X3. A vertex marked processed after some round has its returned
    distance from that round on, and no distance grows from a round to the
    returned vector. *)
Theorem processed_distance_is_final (g : Matrix T) (source : Z) (k : nat) :
  square_matrix g -> (0 <= source < Z.of_nat (length g))%Z ->
  k <= length g - 1 ->
  exists dist proc final,
    rounds source k (engine g) = Ret ((dist, proc), engine g) /\
    run_from_vertex g source = Ret final /\
    (forall v, proc !! v = Some true -> final !! v = dist !! v) /\
    (forall v d d', dist !! v = Some d -> final !! v = Some d' ->
                    num_le d' d = true).
Proof.
  intros Hg Hsrc Hk.
  destruct (rounds_settle (engine g) source (length g - 1 - k) k)
    as ([dist proc] & [final proc'] & Hr & Hr' & _ & Hp & Hd);
    [apply square_engine, Hg | exact Hsrc | simpl; lia |].
  replace (k + (length g - 1 - k)) with (length g - 1) in Hr' by lia.
  exists dist, proc, final. split; [exact Hr|]. split.
  - unfold run_from_vertex. rewrite engine_new.
    unfold from_vertex, bind. simpl. rewrite Hr'. reflexivity.
  - split; [|exact Hd]. intros v Hv. exact (proj2 (Hp v Hv)).
Qed.

(** X1. Whatever the weights are, each returned distance is infinity or
    the sum of the weights along a path from the source over nonzero
    entries. *)
Theorem returned_distances_are_path_costs (g : Matrix T) (source : Z) :
  square_matrix g -> (0 <= source < Z.of_nat (length g))%Z ->
  exists dist,
    run_from_vertex g source = Ret dist /\ length dist = length g /\
    forall v d, dist !! v = Some d ->
      d = num_inf \/ exists p, path (engine g) (Z.to_nat source) p v d.
Proof.
  intros Hg Hsrc. apply run_returns. eapply returns_weaken.
  - apply from_vertex_rounds, (engine_rounds g source (length g - 1));
      auto.
  - intros dist [proc (Hld & _ & _ & _ & _ & _ & _ & Hreach)].
    split; [exact Hld|]. intros v d Hd.
    destruct (Hreach v d Hd) as [->|Hw]; [left; reflexivity|].
    right. apply walk_path, Hw.
Qed.
End AnyWeights.

Lemma processed_distance_is_final_witness :
  exists dist proc final,
    rounds 0 2 (engine main_graph) = Ret ((dist, proc), engine main_graph) /\
    run_from_vertex main_graph 0 = Ret final /\
    (forall v, proc !! v = Some true -> final !! v = dist !! v) /\
    (forall v d d', dist !! v = Some d -> final !! v = Some d' ->
                    num_le d' d = true).
Proof.
  apply (processed_distance_is_final main_graph 0 2).
  - exact square_main_graph.
  - simpl. lia.
  - simpl. lia.
Defined.

Lemma returned_distances_are_path_costs_witness :
  exists dist,
    run_from_vertex main_graph 0 = Ret dist /\
    length dist = length main_graph /\
    forall v d, dist !! v = Some d ->
      d = num_inf \/ exists p, path (engine main_graph) (Z.to_nat 0) p v d.
Proof.
  apply (returned_distances_are_path_costs main_graph 0).
  - exact square_main_graph.
  - simpl. lia.
Defined.

(** X2. In binary32, whatever the entries of a square matrix are
    (negative, infinite or NaN), a call with a source in range returns [N]
    numbers none of which is NaN. *)
Theorem from_vertex_returns_no_nan (g : Matrix float) (source : Z) :
  square_matrix g -> (0 <= source < Z.of_nat (length g))%Z ->
  exists dist,
    run_from_vertex g source = Ret dist /\ length dist = length g /\
    forall v, dist !! v <> Some S754_nan.
Proof.
  intros Hg Hsrc. apply run_returns. eapply returns_weaken.
  - apply from_vertex_rounds, (engine_rounds g source (length g - 1));
      auto.
  - intros dist [proc (Hld & _ & _ & Hord & _)].
    split; [exact Hld|]. intros v Hv. apply Hord in Hv. discriminate.
Qed.

Lemma from_vertex_returns_no_nan_witness :
  exists dist,
    run_from_vertex [[S754_nan; S754_nan]; [S754_nan; S754_nan]] 1 = Ret dist /\
    length dist = 2 /\ forall v, dist !! v <> Some S754_nan.
Proof.
  apply (from_vertex_returns_no_nan
           [[S754_nan; S754_nan]; [S754_nan; S754_nan]] 1).
  - repeat constructor.
  - simpl. lia.
Defined.

(** ** The entries the result does not depend on *)

Section Unused.
Context {T : Type} `{Numeric T} `{!OrderLaws T}.
Implicit Types (dist : list T) (proc : list bool) (this : Dijkstra T).

Lemma selects_unique dist proc u u' :
  selects dist proc u -> selects dist proc u' -> u = u'.
Proof.
  intros (Hpu & du & Hdu & Hmin) (Hpu' & du' & Hdu' & Hmin').
  destruct (Hmin u' du' Hpu' Hdu') as [Hle Htie].
  destruct (Hmin' u du Hpu Hdu) as [Hle' Htie'].
  pose proof (Htie Hle'). pose proof (Htie' Hle). lia.
Qed.

Lemma rounds_0 this (source : Z) :
  (0 <= source < Z.of_nat (size this))%Z ->
  rounds source 0 this =
  Ret ((<[Z.to_nat source:=num_zero]> (replicate (size this) num_inf),
        replicate (size this) false), this).
Proof.
  intros Hsrc. unfold rounds, bind. rewrite initial_eq.
  unfold vec_set_int, vec_set. destruct (decide (0 <= source)%Z); [|lia].
  rewrite length_replicate.
  destruct (decide (Z.to_nat source < size this)); [reflexivity | lia].
Qed.

Lemma round_post_same this this' s j dist proc st st' :
  square this -> square this' -> size this = size this' ->
  same_edges s this this' ->
  basic_inv this s j (dist, proc) ->
  round_post this dist proc st -> round_post this' dist proc st' ->
  st = st'.
Proof.
  intros Hsq Hsq' Hsize Hsame Hinv
    (u & du & Hsel & Hdu & Hproc & Hrel) (u' & du' & Hsel' & Hdu' & Hproc' & Hrel').
  assert (u' = u) as -> by (eapply selects_unique; eassumption).
  assert (du' = du) as -> by congruence.
  destruct st as [d1 p1], st' as [d2 p2]. simpl in *. subst p1 p2.
  f_equal.
  pose proof Hinv as (Hld & Hlp & _ & _ & _ & Hps & _).
  pose proof Hsel as (Hpu & _).
  assert (Hu : u < size this) by (apply lookup_lt_Some in Hdu; lia).
  assert (Hlp' : length (<[u:=true]> proc) = size this)
    by (rewrite length_insert; exact Hlp).
  assert (Hsrc : <[u:=true]> proc !! s = Some true).
  { destruct (decide (u = s)) as [->|Hne].
    - apply list_lookup_insert_eq. lia.
    - rewrite list_lookup_insert_ne by exact Hne. apply Hps.
      destruct j; [|lia]. exfalso. apply Hne.
      eapply first_selects_source; eassumption. }
  destruct Hrel as (Hl1 & _ & Hall1), Hrel' as (Hl2 & _ & Hall2).
  apply list_eq. intros v.
  destruct (decide (v < size this)) as [Hv|Hv].
  2:{ rewrite !lookup_ge_None_2 by lia. reflexivity. }
  destruct (vertex_data this dist (<[u:=true]> proc) u v)
    as (dv & pv & w & Hdv & Hpv & Hw); auto.
  destruct (entry_is_Some this' u v Hsq') as [w' Hw']; [lia | lia |].
  rewrite (Hall1 v pv w dv Hpv Hw Hdv), (Hall2 v pv w' dv Hpv Hw' Hdv).
  rewrite <- Hsize. destruct (decide (v < size this)); [|lia]. f_equal.
  destruct pv; [reflexivity|].
  assert (Hvu : u <> v).
  { intros <-. rewrite list_lookup_insert_eq in Hpv by lia. discriminate. }
  assert (Hvs : v <> s) by (intros ->; congruence).
  destruct (Hsame u v w w' Hvu Hvs Hw Hw') as [->|[Hi Hi']]; [reflexivity|].
  rewrite Hi, Hi'. reflexivity.
Qed.

Lemma rounds_same this this' (source : Z) k :
  square this -> square this' -> size this = size this' ->
  same_edges (Z.to_nat source) this this' ->
  (0 <= source < Z.of_nat (size this))%Z -> k <= size this - 1 ->
  exists st,
    rounds source k this = Ret (st, this) /\
    rounds source k this' = Ret (st, this').
Proof.
  intros Hsq Hsq' Hsize Hsame Hsrc. induction k as [|k IH]; intros Hk.
  - eexists. split; [apply rounds_0; exact Hsrc|].
    rewrite Hsize. apply rounds_0. lia.
  - destruct IH as (st & Hr & Hr'); [lia|].
    destruct (rounds_step this source k Hsq Hsrc Hk)
      as (dist & proc & st1 & Hr1 & HrS & Hinv & Hpost & _).
    destruct (rounds_step this' source k Hsq')
      as (dist' & proc' & st2 & Hr2 & HrS' & _ & Hpost' & _); [lia | lia |].
    assert (st = (dist, proc)) by congruence.
    assert (st = (dist', proc')) by congruence.
    assert (dist' = dist /\ proc' = proc) as [-> ->]
      by (split; congruence).
    exists st1. split; [exact HrS|].
    rewrite (round_post_same this this' _ _ dist proc st1 st2
               Hsq Hsq' Hsize Hsame Hinv Hpost Hpost').
    exact HrS'.
Qed.

Lemma run_same (g g' : Matrix T) (source : Z) :
  square_matrix g -> square_matrix g' -> length g = length g' ->
  same_edges (Z.to_nat source) (engine g) (engine g') ->
  (0 <= source < Z.of_nat (length g))%Z ->
  run_from_vertex g source = run_from_vertex g' source.
Proof.
  intros Hg Hg' Hlen Hsame Hsrc.
  destruct (rounds_same (engine g) (engine g') source (length g - 1))
    as ([dist proc] & Hr & Hr'); auto using square_engine.
  unfold run_from_vertex. rewrite !engine_new.
  unfold from_vertex, bind. simpl. rewrite <- Hlen, Hr, Hr'. reflexivity.
Qed.

(** X4. The result does not depend on the diagonal of the matrix nor on
    the column of the source: when the loop comes to [graph[u][u]] or to
    [graph[u][source]] the vertex is already processed, and the entry is
    not read. *)
Theorem diagonal_and_source_column_unused (g g' : Matrix T) (source : Z) :
  square_matrix g -> square_matrix g' -> length g = length g' ->
  (0 <= source < Z.of_nat (length g))%Z ->
  (forall u v, u <> v -> v <> Z.to_nat source ->
               entry (engine g) u v = entry (engine g') u v) ->
  run_from_vertex g source = run_from_vertex g' source.
Proof.
  intros Hg Hg' Hlen Hsrc Hsame. apply run_same; auto.
  intros u v w w' Huv Hvs Hw Hw'. left.
  rewrite (Hsame u v Huv Hvs) in Hw. congruence.
Qed.
End Unused.

Lemma diagonal_and_source_column_unused_witness :
  run_from_vertex main_graph 0 = run_from_vertex main_graph_variant 0.
Proof.
  apply (diagonal_and_source_column_unused main_graph main_graph_variant 0).
  - exact square_main_graph.
  - repeat constructor.
  - reflexivity.
  - simpl. lia.
  - intros u v Huv Hv.
    destruct u as [|[|[|[|u]]]], v as [|[|[|[|v]]]];
      try reflexivity; try (exfalso; apply Huv; reflexivity);
      exfalso; apply Hv; reflexivity.
Defined.

(** *** Infinite entries of a binary32 matrix *)

Lemma inert_float_zero : inert (S754_zero false).
Proof. intros du dv. reflexivity. Qed.

Lemma inert_float_infinity : inert (S754_infinity false).
Proof.
  intros du dv. unfold relaxed.
  assert (Hlt : num_lt (num_add du (S754_infinity false)) dv = false).
  { destruct du as [[]|[]| |[] m e], dv as [[]|[]| |[] m' e']; reflexivity. }
  rewrite Hlt, andb_false_r. reflexivity.
Qed.

Lemma entry_map (f : float -> float) (g : Matrix float) u v :
  entry (engine (map (map f) g)) u v = f <$> entry (engine g) u v.
Proof.
  unfold entry, engine. simpl. rewrite list_lookup_fmap.
  destruct (g !! u) as [row|]; simpl; [|reflexivity].
  apply list_lookup_fmap.
Qed.

Lemma square_map (f : float -> float) (g : Matrix float) :
  square_matrix g -> square_matrix (map (map f) g).
Proof.
  unfold square_matrix. rewrite Forall_fmap, length_map.
  intros Hg. eapply Forall_impl; [exact Hg|].
  intros row Hrow. simpl. rewrite length_map. exact Hrow.
Qed.

(** X5. In binary32 an entry [+infinity] acts as a missing edge: replacing
    every infinite entry of a square matrix by [0] does not change what a
    call returns. *)
Theorem infinite_entries_are_no_edges (g : Matrix float) (source : Z) :
  square_matrix g -> (0 <= source < Z.of_nat (length g))%Z ->
  run_from_vertex (map (map drop_infinite) g) source =
  run_from_vertex g source.
Proof.
  intros Hg Hsrc. symmetry. apply run_same.
  - exact Hg.
  - apply square_map, Hg.
  - rewrite length_map. reflexivity.
  - intros u v w w' _ _ Hw. rewrite entry_map, Hw. simpl. intros [= <-].
    destruct w as [s|[]| |s m e]; simpl; auto.
    right. split; [apply inert_float_infinity | apply inert_float_zero].
  - exact Hsrc.
Qed.

Lemma infinite_entries_are_no_edges_witness :
  run_from_vertex (map (map drop_infinite) main_graph) 0 =
  run_from_vertex main_graph 0.
Proof.
  apply (infinite_entries_are_no_edges main_graph 0).
  - exact square_main_graph.
  - simpl. lia.
Defined.

(** ** [min_distance] on any two vectors *)

Section Scan.
Context {T : Type} `{Numeric T} `{!OrderLaws T}.
Implicit Types (dist : list T) (proc : list bool) (this : Dijkstra T).

Lemma scan_best_spec dist proc n :
  n <= length dist -> n <= length proc ->
  match scan_best dist proc n with
  | (best, None) =>
      best = num_inf /\ forall v d, v < n -> ~ candidate dist proc v d
  | (best, Some u) =>
      u < n /\ candidate dist proc u best /\
      forall v d, v < n -> candidate dist proc v d ->
        num_le best d = true /\ (num_le d best = true -> v <= u)
  end.
Proof.
  induction n as [|n IH]; intros Hld Hlp.
  - simpl. split; [reflexivity|]. intros v d Hv. lia.
  - rewrite scan_best_S. unfold scan_update.
    destruct (lookup_lt_is_Some_2 proc n) as [p Hp]; [lia|].
    destruct (lookup_lt_is_Some_2 dist n) as [d Hd]; [lia|].
    rewrite Hp, Hd.
    destruct (scan_best dist proc n) as [best idx].
    specialize (IH ltac:(lia) ltac:(lia)). simpl fst.
    destruct p.
    { (* processed: not a candidate *)
      destruct idx as [u|].
      - destruct IH as (Hu & Hcu & Hmin). split; [lia|]. split; [exact Hcu|].
        intros v d' Hv Hc. destruct (decide (v = n)) as [->|Hne].
        + destruct Hc as (Hpn & _). congruence.
        + apply Hmin; [lia | exact Hc].
      - destruct IH as [-> Hnone]. split; [reflexivity|].
        intros v d' Hv Hc. destruct (decide (v = n)) as [->|Hne].
        + destruct Hc as (Hpn & _). congruence.
        + apply (Hnone v d'); [lia | exact Hc]. }
    destruct (num_le d best) eqn:Hle.
    + (* the candidate replaces the best so far *)
      pose proof (le_ordered_l _ _ Hle) as Hdd.
      split; [lia|]. split; [repeat split; assumption|].
      intros v d' Hv Hc. destruct (decide (v = n)) as [->|Hne].
      * destruct Hc as (_ & Hd' & _). assert (d' = d) as -> by congruence.
        split; [exact Hdd | lia].
      * split; [|lia]. destruct idx as [u|].
        -- destruct IH as (_ & _ & Hmin).
           apply (le_trans _ best); [exact Hle|].
           apply (Hmin v d'); [lia | exact Hc].
        -- destruct IH as [_ Hnone]. destruct (Hnone v d'); [lia | exact Hc].
    + (* the candidate is larger, or not ordered *)
      destruct idx as [u|].
      * destruct IH as (Hu & Hcu & Hmin). split; [lia|]. split; [exact Hcu|].
        intros v d' Hv Hc. destruct (decide (v = n)) as [->|Hne].
        -- destruct Hc as (_ & Hd' & Hdd). assert (d' = d) as -> by congruence.
           split; [|congruence].
           destruct Hcu as (_ & _ & Hbb).
           destruct (le_total best d Hbb Hdd); [assumption | congruence].
        -- apply Hmin; [lia | exact Hc].
      * destruct IH as [-> Hnone]. split; [reflexivity|].
        intros v d' Hv Hc. destruct (decide (v = n)) as [->|Hne].
        -- destruct Hc as (_ & Hd' & Hdd). assert (d' = d) as -> by congruence.
           rewrite (le_top d Hdd) in Hle. discriminate.
        -- apply (Hnone v d'); [lia | exact Hc].
Qed.

(** X6. [min_distance] on any two vectors of [size] entries. It skips the
    processed vertices and the vertices whose distance is not ordered (a
    NaN). When no vertex is left it returns its local [min_index] unset,
    which is a fault; otherwise it returns the vertex of least distance
    among those left, and the last one of those that tie. *)
Theorem min_distance_any_vectors this dist proc :
  length dist = size this -> length proc = size this ->
  ((forall v d, ~ candidate dist proc v d) ->
   min_distance dist proc this = Undefined Uninitialised) /\
  (forall v d, candidate dist proc v d ->
     exists u du,
       min_distance dist proc this = Ret (u, this) /\
       candidate dist proc u du /\
       forall v' d', candidate dist proc v' d' ->
         num_le du d' = true /\ (num_le d' du = true -> v' <= u)).
Proof.
  intros Hld Hlp.
  pose proof (scan_best_spec dist proc (size this)) as Hscan.
  rewrite (min_distance_scan this dist proc Hld Hlp).
  destruct (scan_best dist proc (size this)) as [best [u|]]; simpl;
    (specialize (Hscan ltac:(lia) ltac:(lia))).
  - destruct Hscan as (Hu & Hcu & Hmin). split.
    + intros Hnone. destruct (Hnone u best Hcu).
    + intros v d Hc. exists u, best. split; [reflexivity|].
      split; [exact Hcu|]. intros v' d' Hc'. apply Hmin; [|exact Hc'].
      destruct Hc' as (Hpv & _). apply lookup_lt_Some in Hpv. lia.
  - destruct Hscan as [_ Hnone]. split; [reflexivity|].
    intros v d Hc. destruct (Hnone v d); [|exact Hc].
    destruct Hc as (Hpv & _). apply lookup_lt_Some in Hpv. lia.
Qed.
End Scan.

Lemma min_distance_any_vectors_witness :
  ((forall v d,
      ~ candidate [S754_nan; float_of_Z 3; float_of_Z 1; float_of_Z 1]
          [false; true; false; false] v d) ->
   min_distance [S754_nan; float_of_Z 3; float_of_Z 1; float_of_Z 1]
     [false; true; false; false] (engine main_graph) =
   Undefined Uninitialised) /\
  (forall v d,
     candidate [S754_nan; float_of_Z 3; float_of_Z 1; float_of_Z 1]
       [false; true; false; false] v d ->
     exists u du,
       min_distance [S754_nan; float_of_Z 3; float_of_Z 1; float_of_Z 1]
         [false; true; false; false] (engine main_graph) =
       Ret (u, engine main_graph) /\
       candidate [S754_nan; float_of_Z 3; float_of_Z 1; float_of_Z 1]
         [false; true; false; false] u du /\
       forall v' d',
         candidate [S754_nan; float_of_Z 3; float_of_Z 1; float_of_Z 1]
           [false; true; false; false] v' d' ->
         num_le du d' = true /\ (num_le d' du = true -> v' <= u)).
Proof.
  apply (min_distance_any_vectors (engine main_graph)
           [S754_nan; float_of_Z 3; float_of_Z 1; float_of_Z 1]
           [false; true; false; false]); reflexivity.
Defined.

(** With a NaN at vertex 0, a processed vertex 1 and a tie between the
    vertices 2 and 3, [min_distance] returns 3; with every vertex
    processed it returns its local unset. *)
Example min_distance_skips :
  min_distance [S754_nan; float_of_Z 3; float_of_Z 1; float_of_Z 1]
    [false; true; false; false] (engine main_graph) =
    Ret (3, engine main_graph) /\
  min_distance [float_of_Z 0; float_of_Z 3; float_of_Z 1; float_of_Z 1]
    [true; true; true; true] (engine main_graph) = Undefined Uninitialised.
Proof. split; reflexivity. Qed.

(** ** Weights that are not negative *)

Section Greedy.
Context {T : Type} `{Numeric T} `{!OrderLaws T}.
Context (nn : T -> bool) `{!NonnegLaws T nn}.
Implicit Types (dist : list T) (proc : list bool) (this : Dijkstra T).

Lemma greedy_start this s :
  greedy (<[s:=num_zero]> (replicate (size this) num_inf),
          replicate (size this) false).
Proof. intros x y dx dy. simpl. rewrite lookup_replicate. intros [[=] _]. Qed.

Lemma greedy_step this s j dist proc st' :
  square this -> weights_in nn this ->
  basic_inv this s j (dist, proc) -> sp_inv nn this s (dist, proc) ->
  greedy (dist, proc) ->
  round_post this dist proc st' ->
  greedy st'.
Proof.
  intros Hsq Hnn Hinv (Hpos & _) Hgr Hpost.
  pose proof (settles_round this s j dist proc st' Hsq Hinv Hpost)
    as [Hkeep _].
  destruct Hpost as (u & du & Hsel & Hdu & Hproc & Hrel).
  destruct st' as [dist' proc']. simpl in *. subst proc'.
  pose proof Hinv as (Hld & Hlp & _ & Hord & _).
  pose proof Hsel as (Hpu & du' & Hdu' & Hmin).
  assert (du' = du) as -> by congruence. clear Hdu'.
  assert (Hu : u < size this) by (apply lookup_lt_Some in Hdu; lia).
  assert (Hlp' : length (<[u:=true]> proc) = size this)
    by (rewrite length_insert; exact Hlp).
  pose proof (Hpos u du Hdu) as Hdu0.
  intros x y dx dy Hpx Hpy Hdx Hdy. simpl in Hpx, Hpy, Hdx, Hdy.
  assert (Hyu : u <> y).
  { intros <-. rewrite list_lookup_insert_eq in Hpy by lia. discriminate. }
  rewrite list_lookup_insert_ne in Hpy by exact Hyu.
  destruct (relax_entry this u du (<[u:=true]> proc) dist dist' y dy)
    as (dy0 & py & w & Hdy0 & Hpy' & Hw & ->); auto.
  (* the distance of [x] before the round, and its relation to [du] *)
  assert (Hx : dist !! x = Some dx /\ num_le dx du = true).
  { destruct (decide (x = u)) as [->|Hne].
    - assert (dist' !! u = dist !! u) as Heq.
      { destruct (vertex_data this dist (<[u:=true]> proc) u u)
          as (dv & pv & wu & Hdv & Hpv & Hwu); auto.
        destruct Hrel as (_ & _ & Hall).
        rewrite (Hall u pv wu dv Hpv Hwu Hdv), Hdv.
        assert (pv = true) as -> by congruence.
        destruct (decide (u < size this)); reflexivity. }
      rewrite Heq in Hdx. assert (dx = du) as -> by congruence.
      split; [exact Hdu | exact (Hord u du Hdu)].
    - rewrite list_lookup_insert_ne in Hpx by auto.
      destruct (Hkeep x Hpx) as [_ Heq]. rewrite Heq in Hdx.
      split; [exact Hdx|]. exact (Hgr x u dx du Hpx Hpu Hdx Hdu). }
  destruct Hx as [Hdx0 Hxu].
  destruct (relaxed_cases du w dy0 py) as [->|(_ & _ & _ & _ & ->)].
  - destruct (decide (x = u)) as [->|Hne].
    + assert (dx = du) as -> by congruence.
      apply (Hmin y dy0 Hpy Hdy0).
    + rewrite list_lookup_insert_ne in Hpx by auto.
      exact (Hgr x y dx dy0 Hpx Hpy Hdx0 Hdy0).
  - apply (le_trans _ du); [exact Hxu|].
    apply add_increasing; [exact Hdu0 | exact (Hnn u y w Hw)].
Qed.

(** After every round the loop invariants of the shortest-path argument
    hold together with the order of processing. *)
Lemma rounds_greedy this (source : Z) (k : nat) :
  square this -> weights_in nn this ->
  (0 <= source < Z.of_nat (size this))%Z -> k <= size this - 1 ->
  returns (rounds source k) this (fun st =>
    basic_inv this (Z.to_nat source) k st /\
    sp_inv nn this (Z.to_nat source) st /\ greedy st).
Proof.
  intros Hsq Hnn Hsrc Hk.
  apply (rounds_inv this source k
           (fun st => sp_inv nn this (Z.to_nat source) st /\ greedy st));
    auto.
  - split; [apply sp_inv_start; assumption | apply greedy_start].
  - intros j dist proc st' Hinv [Hsp Hgr] Hpost. split.
    + eapply sp_inv_step; eauto.
    + eapply greedy_step; eauto.
Qed.

(** No edge improves the vector after the last round. *)
Lemma rounds_stable this (source : Z) :
  square this -> weights_in nn this ->
  (0 <= source < Z.of_nat (size this))%Z ->
  returns (rounds source (size this - 1)) this (fun '(dist, _) =>
    forall u v w du dv,
      entry this u v = Some w -> truthy w = true ->
      dist !! u = Some du -> dist !! v = Some dv ->
      num_le dv (num_add du w) = true).
Proof.
  intros Hsq Hnn Hsrc. eapply returns_weaken.
  - apply (rounds_shortest nn); assumption.
  - intros [dist proc] [Hlen Hall] u v w du dv Hw Htr Hdu Hdv.
    destruct (Hall u du Hdu) as [Hru _].
    destruct (Hall v dv Hdv) as [Hrv Hlow].
    pose proof (Hnn u v w Hw) as Hw0.
    destruct Hru as [->|Hwalk].
    + assert (Hvv : num_le dv dv = true).
      { destruct Hrv as [->|Hwv].
        - exact (le_ordered_r _ _ le_zero_inf).
        - exact (le_ordered_r _ _
                   (nn_le _ (walk_nonneg nn _ _ _ _ Hnn Hwv))). }
      apply (le_trans _ num_inf); [apply le_top, Hvv|].
      apply add_increasing; [exact nn_inf | exact Hw0].
    + apply Hlow. eapply walk_edge; eassumption.
Qed.

End Greedy.

(** X7. For a binary32 matrix without negative entries, after every round
    each processed vertex is at most as far from the source as each
    unprocessed one: the vertices are taken in the order of their
    distance. *)
Theorem processed_vertices_are_nearest (g : Matrix float) (source : Z)
  (k : nat) :
  square_matrix g -> nonneg_matrix g = true ->
  (0 <= source < Z.of_nat (length g))%Z -> k <= length g - 1 ->
  exists dist proc,
    rounds source k (engine g) = Ret ((dist, proc), engine g) /\
    forall x y dx dy,
      proc !! x = Some true -> proc !! y = Some false ->
      dist !! x = Some dx -> dist !! y = Some dy ->
      SFleb dx dy = true.
Proof.
  intros Hg Hnn%nonneg_matrix_weights Hsrc Hk.
  destruct (rounds_greedy nonneg (engine g) source k)
    as ([dist proc] & Hr & _ & _ & Hgr); auto using square_engine.
  exists dist, proc. split; [exact Hr | exact Hgr].
Qed.

(** X8. For a binary32 matrix without negative entries, no edge improves
    the returned vector: for every nonzero entry [w] from [u] to [v], the
    distance of [v] is at most the binary32 sum of the distance of [u]
    and [w]. *)
Theorem returned_distances_are_stable (g : Matrix float) (source : Z) :
  square_matrix g -> nonneg_matrix g = true ->
  (0 <= source < Z.of_nat (length g))%Z ->
  exists dist,
    run_from_vertex g source = Ret dist /\
    forall u v w du dv,
      entry (engine g) u v = Some w -> truthy w = true ->
      dist !! u = Some du -> dist !! v = Some dv ->
      SFleb dv (SFadd prec32 emax32 du w) = true.
Proof.
  intros Hg Hnn%nonneg_matrix_weights Hsrc. apply run_returns.
  eapply returns_weaken.
  - apply from_vertex_rounds, (rounds_stable nonneg);
      [apply square_engine, Hg | exact Hnn | exact Hsrc].
  - intros dist [proc HQ]. exact HQ.
Qed.

Lemma processed_vertices_are_nearest_witness :
  exists dist proc,
    rounds 0 1 (engine detour_graph) = Ret ((dist, proc), engine detour_graph) /\
    forall x y dx dy,
      proc !! x = Some true -> proc !! y = Some false ->
      dist !! x = Some dx -> dist !! y = Some dy ->
      SFleb dx dy = true.
Proof.
  apply (processed_vertices_are_nearest detour_graph 0 1).
  - exact square_detour_graph.
  - reflexivity.
  - simpl. lia.
  - simpl. lia.
Defined.

Lemma returned_distances_are_stable_witness :
  exists dist,
    run_from_vertex detour_graph 0 = Ret dist /\
    forall u v w du dv,
      entry (engine detour_graph) u v = Some w -> truthy w = true ->
      dist !! u = Some du -> dist !! v = Some dv ->
      SFleb dv (SFadd prec32 emax32 du w) = true.
Proof.
  apply (returned_distances_are_stable detour_graph 0).
  - exact square_detour_graph.
  - reflexivity.
  - simpl. lia.
Defined.

(** ** A row that is too short *)

Section ShortRow.
Context {T : Type} `{Numeric T} `{!OrderLaws T}.
Implicit Types (dist : list T) (proc : list bool) (this : Dijkstra T).

Lemma relax_unfold u proc dist :
  relax u proc dist =
  (let* n := get_size in for_loop n 0 (relax_body u proc) dist).
Proof. reflexivity. Qed.

Lemma graph_at_entry this u v :
  graph_at u v this =
  match entry this u v with
  | Some w => Ret (w, this)
  | None => Undefined OutOfBounds
  end.
Proof.
  unfold graph_at, entry. destruct (graph this !! u) as [row|]; reflexivity.
Qed.

(** One step of the relaxation loop returns a vector of the same length,
    or it is an access outside a vector. *)
Lemma relax_body_outcome this u proc v dist :
  relax_body u proc v dist this = Undefined OutOfBounds \/
  exists dist',
    relax_body u proc v dist this = Ret (dist', this) /\
    length dist' = length dist.
Proof.
  unfold relax_body, bind, vec_get, vec_set, ret, undefined.
  destruct (proc !! v) as [[]|]; simpl; eauto.
  rewrite graph_at_entry. destruct (entry this u v) as [w|]; eauto.
  destruct (truthy w); eauto.
  destruct (dist !! u) as [du|]; eauto.
  destruct (num_ne du num_inf); eauto.
  destruct (dist !! v) as [dv|]; eauto.
  destruct (num_lt (num_add du w) dv); eauto.
  destruct (decide (v < length dist)); eauto.
  right. eexists. split; [reflexivity|]. apply length_insert.
Qed.

Lemma relax_body_fault this u proc v dist :
  proc !! v = Some false -> entry this u v = None ->
  relax_body u proc v dist this = Undefined OutOfBounds.
Proof.
  intros Hp Hw. unfold relax_body, bind, vec_get, ret. rewrite Hp. simpl.
  rewrite graph_at_entry, Hw. reflexivity.
Qed.

Lemma relax_loop_fault this u proc v n :
  proc !! v = Some false -> entry this u v = None ->
  forall i dist,
    i <= v < i + n ->
    for_loop n i (relax_body u proc) dist this = Undefined OutOfBounds.
Proof.
  intros Hp Hw. induction n as [|n IH]; intros i dist Hv; [lia|].
  rewrite for_loop_S. unfold bind.
  destruct (decide (i = v)) as [->|Hne].
  - rewrite relax_body_fault by assumption. reflexivity.
  - destruct (relax_body_outcome this u proc i dist)
      as [->|(dist' & -> & _)]; [reflexivity|].
    apply IH. lia.
Qed.

Lemma first_round_fault this (source : Z) v :
  (0 <= source < Z.of_nat (size this))%Z ->
  v < size this -> v <> Z.to_nat source ->
  entry this (Z.to_nat source) v = None ->
  round (<[Z.to_nat source:=num_zero]> (replicate (size this) num_inf),
         replicate (size this) false) this = Undefined OutOfBounds.
Proof.
  intros Hsrc Hv Hne Hw.
  pose proof (basic_inv_start this (Z.to_nat source) ltac:(lia)) as Hinv.
  pose proof Hinv as (Hld & Hlp & _ & Hord & _).
  destruct (min_distance_spec this _ _ Hld Hlp Hord) as (u & Hu & Hsel).
  { exists v. apply lookup_replicate_2. exact Hv. }
  assert (u = Z.to_nat source) as ->
    by (eapply first_selects_source; eassumption).
  unfold round, bind. rewrite Hu. unfold vec_set.
  rewrite length_replicate.
  destruct (decide (Z.to_nat source < size this)); [|lia]. simpl.
  rewrite relax_unfold. unfold bind. simpl.
  rewrite (relax_loop_fault this _ _ v); [reflexivity | | exact Hw | lia].
  rewrite list_lookup_insert_ne by auto.
  apply lookup_replicate_2. exact Hv.
Qed.

Lemma rounds_first_fault this (source : Z) k (f : fault) :
  (0 <= source < Z.of_nat (size this))%Z ->
  round (<[Z.to_nat source:=num_zero]> (replicate (size this) num_inf),
         replicate (size this) false) this = Undefined f ->
  rounds source (S k) this = Undefined f.
Proof.
  intros Hsrc Hround. unfold rounds. unfold bind at 1. rewrite initial_eq.
  unfold bind at 1. unfold vec_set_int, vec_set.
  destruct (decide (0 <= source)%Z); [|lia]. rewrite length_replicate.
  destruct (decide (Z.to_nat source < size this)); [|lia].
  unfold ret at 1. cbv beta iota.
  rewrite for_loop_S. unfold bind. rewrite Hround. reflexivity.
Qed.

(** X9. A matrix whose row of the source is too short to have an entry for
    some other vertex [v] is accepted by the constructor, and in its first
    round the call reads [graph[source][v]] outside that row, which is
    undefined behaviour. *)
Theorem short_source_row_faults (g : Matrix T) (source : Z)
  (row : list T) (v : nat) :
  (0 <= source < Z.of_nat (length g))%Z ->
  g !! Z.to_nat source = Some row ->
  v < length g -> v <> Z.to_nat source -> length row <= v ->
  run_from_vertex g source = Undefined OutOfBounds.
Proof.
  intros Hsrc Hrow Hv Hne Hshort.
  unfold run_from_vertex. rewrite engine_new.
  assert (Hw : entry (engine g) (Z.to_nat source) v = None).
  { unfold entry, engine. simpl. rewrite Hrow.
    apply lookup_ge_None_2. exact Hshort. }
  unfold from_vertex, bind at 1. unfold get_size. cbv beta iota.
  destruct (size (engine g) - 1) as [|k] eqn:Hk; [simpl in Hk; lia|].
  unfold bind.
  rewrite (rounds_first_fault (engine g) source k OutOfBounds Hsrc);
    [reflexivity|].
  exact (first_round_fault (engine g) source v Hsrc Hv Hne Hw).
Qed.
End ShortRow.

Lemma short_source_row_faults_witness :
  run_from_vertex [[float_of_Z 0]; [float_of_Z 1; float_of_Z 0]] 0 =
  Undefined OutOfBounds.
Proof.
  apply (short_source_row_faults
           [[float_of_Z 0]; [float_of_Z 1; float_of_Z 0]] 0 [float_of_Z 0] 1).
  - simpl. lia.
  - reflexivity.
  - simpl. lia.
  - simpl. lia.
  - simpl. lia.
Defined.

(** ** The entries a call reads *)

Section SameOutcome.
Context {T : Type} `{Numeric T}.
Implicit Types (dist : list T) (proc : list bool) (this : Dijkstra T).

Lemma same_ret {A : Type} (a : A) this this' (Q : A -> Prop) :
  Q a -> same_outcome (ret a) this this' Q.
Proof. intros HQ. unfold same_outcome, ret. auto. Qed.

Lemma same_undefined {A : Type} (f : fault) this this' (Q : A -> Prop) :
  same_outcome (undefined f) this this' Q.
Proof. reflexivity. Qed.

Lemma same_bind {A B : Type} (m : M T A) (k : A -> M T B) this this'
  (P : A -> Prop) (Q : B -> Prop) :
  same_outcome m this this' P ->
  (forall a, P a -> same_outcome (k a) this this' Q) ->
  same_outcome (bind m k) this this' Q.
Proof.
  unfold same_outcome, bind. intros Hm Hk.
  destruct (m this) as [[a t]|c|f], (m this') as [[a' t']|c'|f'];
    try contradiction; try exact Hm.
  destruct Hm as (<- & -> & -> & HP). exact (Hk a HP).
Qed.

Lemma same_weaken {A : Type} (m : M T A) this this' (P Q : A -> Prop) :
  same_outcome m this this' P -> (forall a, P a -> Q a) ->
  same_outcome m this this' Q.
Proof.
  unfold same_outcome. intros Hm HPQ.
  destruct (m this) as [[a t]|c|f], (m this') as [[a' t']|c'|f'];
    try contradiction; try exact Hm.
  destruct Hm as (? & ? & ? & HP). auto.
Qed.

Lemma same_for_loop {St : Type} (I : nat -> St -> Prop)
  (body : nat -> St -> M T St) this this' n :
  forall i s,
    I i s ->
    (forall j t, i <= j < i + n -> I j t ->
                 same_outcome (body j t) this this' (I (S j))) ->
    same_outcome (for_loop n i body s) this this' (I (i + n)).
Proof.
  induction n as [|n IH]; intros i s Hs Hbody; simpl.
  - apply same_ret. replace (i + 0) with i by lia. exact Hs.
  - eapply same_bind.
    + apply Hbody; [lia | exact Hs].
    + intros s' Hs'. replace (i + S n) with (S i + n) by lia.
      apply IH; [exact Hs'|]. intros j t Hj. apply Hbody. lia.
Qed.

Lemma same_vec_get {A : Type} (v : list A) i this this' :
  same_outcome (vec_get v i) this this' (fun _ => True).
Proof.
  unfold vec_get. destruct (v !! i);
    [apply same_ret; exact I | apply same_undefined].
Qed.

Lemma same_vec_set {A : Type} (v : list A) i x this this' :
  same_outcome (vec_set v i x) this this' (fun _ => i < length v).
Proof.
  unfold vec_set. destruct (decide (i < length v));
    [apply same_ret; assumption | apply same_undefined].
Qed.

Lemma same_vec_set_int {A : Type} (v : list A) i x this this' :
  same_outcome (vec_set_int v i x) this this' (fun _ => True).
Proof.
  unfold vec_set_int. destruct (decide (0 <= i)%Z);
    [|apply same_undefined].
  eapply same_weaken; [apply same_vec_set | auto].
Qed.

Lemma same_get_size this this' (Q : nat -> Prop) :
  size this = size this' -> Q (size this) ->
  same_outcome get_size this this' Q.
Proof. intros Hsize HQ. unfold same_outcome, get_size. auto. Qed.

Lemma same_graph_at this this' u v :
  entry this u v = entry this' u v ->
  same_outcome (graph_at u v) this this' (fun _ => True).
Proof.
  intros Hw. unfold same_outcome. rewrite !graph_at_entry, <- Hw.
  destruct (entry this u v); auto.
Qed.

Lemma same_min_distance this this' dist proc :
  agree this this' ->
  same_outcome (min_distance dist proc) this this' (fun u => u < size this).
Proof.
  intros [Hsize _]. unfold min_distance.
  eapply same_bind; [apply (same_get_size _ _ (fun n => n = size this));
                     [exact Hsize | reflexivity]|].
  intros n ->. eapply same_bind.
  - apply (same_for_loop
             (fun j (st : T * option nat) =>
                forall u, snd st = Some u -> u < j)).
    + intros u [=].
    + intros j [min mi] Hj Hinv. simpl in Hinv.
      assert (Hkeep : forall u, mi = Some u -> u < S j).
      { intros u Hu. specialize (Hinv u Hu). lia. }
      eapply same_bind; [apply same_vec_get|]. intros p _.
      destruct (negb p); [|apply same_ret; exact Hkeep].
      eapply same_bind; [apply same_vec_get|]. intros d _.
      destruct (num_le d min); apply same_ret; [|exact Hkeep].
      simpl. intros u [= <-]. lia.
  - intros [min [u|]] Hinv; [|apply same_undefined].
    apply same_ret. simpl in Hinv. specialize (Hinv u eq_refl). lia.
Qed.

Lemma same_relax this this' u proc dist :
  agree this this' -> u < size this ->
  same_outcome (relax u proc dist) this this' (fun _ => True).
Proof.
  intros [Hsize Hentry] Hu. unfold relax.
  eapply same_bind; [apply (same_get_size _ _ (fun n => n = size this));
                     [exact Hsize | reflexivity]|].
  intros n ->. eapply same_weaken.
  - apply (same_for_loop (fun _ _ => True)); [exact I|].
    intros j d Hj _.
    eapply same_bind; [apply same_vec_get|]. intros p _.
    destruct (negb p); [|apply same_ret; exact I].
    eapply same_bind; [apply same_graph_at, Hentry; lia|]. intros w _.
    destruct (truthy w); [|apply same_ret; exact I].
    eapply same_bind; [apply same_vec_get|]. intros du _.
    destruct (num_ne du num_inf); [|apply same_ret; exact I].
    eapply same_bind; [apply same_vec_get|]. intros dv _.
    destruct (num_lt (num_add du w) dv); [|apply same_ret; exact I].
    eapply same_weaken; [apply same_vec_set | auto].
  - auto.
Qed.

Lemma same_round this this' st :
  agree this this' ->
  same_outcome (round st) this this' (fun _ => True).
Proof.
  intros Hag. destruct st as [dist proc]. unfold round.
  eapply same_bind; [apply same_min_distance, Hag|]. intros u Hu.
  eapply same_bind; [apply same_vec_set|]. intros proc' _.
  eapply same_bind; [apply same_relax; assumption|]. intros dist' _.
  apply same_ret. exact I.
Qed.

Lemma same_rounds this this' (source : Z) k :
  agree this this' ->
  same_outcome (rounds source k) this this' (fun _ => True).
Proof.
  intros Hag. pose proof Hag as [Hsize _]. unfold rounds, initial.
  apply (same_bind _ _ _ _ (fun _ => True)).
  { apply (same_bind _ _ _ _ (fun n => n = size this)).
    - apply same_get_size; [exact Hsize | reflexivity].
    - intros n ->. apply (same_weaken _ _ _ (fun _ => True)); [|auto].
      apply (same_for_loop (fun _ _ => True)); [exact I|].
      intros j [dist proc] _ _. apply same_ret. exact I. }
  intros [dist proc] _.
  apply (same_bind _ _ _ _ (fun _ => True)); [apply same_vec_set_int|].
  intros dist' _. apply (same_weaken _ _ _ (fun _ => True)); [|auto].
  apply (same_for_loop (fun _ _ => True)); [exact I|].
  intros j st _ _. apply same_round, Hag.
Qed.

Lemma same_from_vertex this this' (source : Z) :
  agree this this' ->
  same_outcome (from_vertex source) this this' (fun _ => True).
Proof.
  intros Hag. pose proof Hag as [Hsize _]. unfold from_vertex.
  apply (same_bind _ _ _ _ (fun n => n = size this)).
  - apply same_get_size; [exact Hsize | reflexivity].
  - intros n ->. apply (same_bind _ _ _ _ (fun _ => True)).
    + apply same_rounds, Hag.
    + intros [dist proc] _. apply same_ret. exact I.
Qed.

Lemma run_agree (g g' : Matrix T) (source : Z) :
  agree (engine g) (engine g') ->
  run_from_vertex g source = run_from_vertex g' source.
Proof.
  intros Hag.
  pose proof (same_from_vertex (engine g) (engine g') source Hag) as Hsame.
  unfold run_from_vertex. rewrite !engine_new.
  unfold same_outcome in Hsame.
  destruct (from_vertex source (engine g)) as [[a t]|c|f],
           (from_vertex source (engine g')) as [[a' t']|c'|f'];
    try contradiction; try congruence.
  destruct Hsame as (-> & _). reflexivity.
Qed.

(** X10. A call reads the matrix only inside the square of [N] rows and
    [N] columns: two matrices with the same number of rows and the same
    entries there give the same outcome for every source, the returned
    vector or the fault. *)
Theorem from_vertex_reads_the_square_only (g g' : Matrix T) (source : Z) :
  length g = length g' ->
  (forall u v, u < length g -> v < length g ->
               entry (engine g) u v = entry (engine g') u v) ->
  run_from_vertex g source = run_from_vertex g' source.
Proof. intros Hlen Hentry. apply run_agree. split; assumption. Qed.

Lemma entry_take (g : Matrix T) u v :
  v < length g ->
  entry (engine (map (take (length g)) g)) u v = entry (engine g) u v.
Proof.
  intros Hv. unfold entry, engine. simpl. rewrite list_lookup_fmap.
  destruct (g !! u) as [row|]; simpl; [|reflexivity].
  apply lookup_take_lt. exact Hv.
Qed.

(** X11. Columns beyond the row count are ignored: when every row has at
    least [N] entries, a call returns what it returns for the matrix cut
    to its first [N] columns, which is square. *)
Theorem wide_rows_are_cut (g : Matrix T) (source : Z) :
  Forall (fun row => length g <= length row) g ->
  square_matrix (map (take (length g)) g) /\
  run_from_vertex g source =
  run_from_vertex (map (take (length g)) g) source.
Proof.
  intros Hwide. split.
  - unfold square_matrix. rewrite Forall_fmap, length_map.
    eapply Forall_impl; [exact Hwide|]. intros row Hrow. simpl in *.
    rewrite length_take. lia.
  - apply run_agree. split.
    + simpl. rewrite length_map. reflexivity.
    + intros u v _ Hv. symmetry. apply entry_take. exact Hv.
Qed.
End SameOutcome.

Lemma from_vertex_reads_the_square_only_witness :
  run_from_vertex [[float_of_Z 0; float_of_Z 5; float_of_Z 9]; [float_of_Z 2]] 1 =
  run_from_vertex [[float_of_Z 0; float_of_Z 5]; [float_of_Z 2]] 1.
Proof.
  apply (from_vertex_reads_the_square_only
           [[float_of_Z 0; float_of_Z 5; float_of_Z 9]; [float_of_Z 2]]
           [[float_of_Z 0; float_of_Z 5]; [float_of_Z 2]] 1).
  - reflexivity.
  - intros u v Hu Hv. simpl in Hu, Hv.
    destruct u as [|[|u]], v as [|[|v]]; try reflexivity; lia.
Defined.

Lemma wide_rows_are_cut_witness :
  square_matrix
    (map (take 2) [[float_of_Z 0; float_of_Z 5; float_of_Z 9];
                   [float_of_Z 2; float_of_Z 0; float_of_Z 7]]) /\
  run_from_vertex [[float_of_Z 0; float_of_Z 5; float_of_Z 9];
                   [float_of_Z 2; float_of_Z 0; float_of_Z 7]] 0 =
  run_from_vertex
    (map (take 2) [[float_of_Z 0; float_of_Z 5; float_of_Z 9];
                   [float_of_Z 2; float_of_Z 0; float_of_Z 7]]) 0.
Proof.
  apply (wide_rows_are_cut
           [[float_of_Z 0; float_of_Z 5; float_of_Z 9];
            [float_of_Z 2; float_of_Z 0; float_of_Z 7]] 0).
  repeat constructor.
Defined.

(** ** The driver *)

Section DriverProperties.
Context {T : Type} `{Numeric T} `{!OrderLaws T}.
Implicit Types (dist : list T) (proc : list bool) (this : Dijkstra T).

Lemma table_of_snoc (output : Matrix T) (row : list T) :
  table_of (output ++ [row]) =
  table_of output ++ imap (fun j d => (j, d)) row.
Proof.
  unfold table_of. rewrite map_app, concat_app. simpl.
  rewrite app_nil_r. reflexivity.
Qed.

Lemma imap_take_S (row : list T) j d :
  row !! j = Some d ->
  imap (fun j d => (j, d)) (take (S j) row) =
  imap (fun j d => (j, d)) (take j row) ++ [(j, d)].
Proof.
  intros Hd. rewrite (take_S_r _ _ _ Hd), imap_app. simpl.
  rewrite length_take_le by (apply lookup_lt_Some in Hd; lia).
  replace (j + 0) with j by lia. reflexivity.
Qed.

Lemma print_row_spec this (output : Matrix T) n i row lines0 :
  output !! i = Some row -> length row = n ->
  returns
    (for_loop n 0 (fun j lines =>
       let* row := vec_get output i in
       let* d := vec_get row j in
       ret (lines ++ [(j, d)])) lines0)
    this (fun lines => lines = lines0 ++ imap (fun j d => (j, d)) row).
Proof.
  intros Hrow Hlen. eapply returns_weaken.
  - apply (returns_for_loop
             (fun j lines =>
                lines = lines0 ++ imap (fun j d => (j, d)) (take j row))).
    + rewrite take_0. simpl. rewrite app_nil_r. reflexivity.
    + intros j lines Hj ->.
      destruct (lookup_lt_is_Some_2 row j) as [d Hd]; [lia|].
      apply (returns_bind_get _ _ _ _ _ _ Hrow).
      apply (returns_bind_get _ _ _ _ _ _ Hd).
      apply returns_ret. rewrite (imap_take_S row j d Hd), app_assoc.
      reflexivity.
  - intros lines ->. simpl. rewrite take_ge by lia. reflexivity.
Qed.

Lemma print_table_spec this (output : Matrix T) n :
  length output = n -> Forall (fun row => length row = n) output ->
  returns (print_table n output) this (fun lines => lines = table_of output).
Proof.
  intros Hlen Hrows. unfold print_table. eapply returns_weaken.
  - apply (returns_for_loop
             (fun i lines => lines = table_of (take i output))).
    + rewrite take_0. reflexivity.
    + intros i lines Hi ->.
      destruct (lookup_lt_is_Some_2 output i) as [row Hrow]; [lia|].
      eapply returns_weaken.
      * apply (print_row_spec this output n i row); [exact Hrow|].
        rewrite Forall_lookup in Hrows. exact (Hrows i row Hrow).
      * intros lines ->. rewrite (take_S_r _ _ _ Hrow), table_of_snoc.
        reflexivity.
  - intros lines ->. simpl. rewrite take_ge by lia. reflexivity.
Qed.

(** What one call of the first loop of the driver returns. *)
Lemma from_vertex_row this i :
  square this -> i < size this ->
  exists row,
    from_vertex (Z.of_nat i) this = Ret (row, this) /\
    length row = size this /\ row !! i = Some num_zero.
Proof.
  intros Hsq Hi.
  destruct (from_vertex_rounds this (Z.of_nat i) _
              (rounds_basic this (Z.of_nat i) (size this - 1) Hsq
                 ltac:(lia) (Nat.le_refl _)))
    as (row & Hr & proc & Hld & _ & _ & _ & Hds & _).
  exists row. rewrite Nat2Z.id in Hds. auto.
Qed.

Lemma all_sources_spec this :
  square this ->
  returns (all_sources (size this)) this (fun output =>
    length output = size this /\
    forall i row, output !! i = Some row ->
      from_vertex (Z.of_nat i) this = Ret (row, this) /\
      length row = size this /\ row !! i = Some num_zero).
Proof.
  intros Hsq. unfold all_sources. eapply returns_weaken.
  - apply (returns_for_loop
             (fun n (output : Matrix T) =>
                length output = n /\
                forall i row, output !! i = Some row ->
                  from_vertex (Z.of_nat i) this = Ret (row, this) /\
                  length row = size this /\ row !! i = Some num_zero)).
    + split; [reflexivity|]. intros i row [=].
    + intros n output Hn [Hlen Hall].
      destruct (from_vertex_row this n Hsq) as (row & Hr & Hlr & Hz); [lia|].
      exists (output ++ [row]). split.
      { unfold bind. rewrite Hr. reflexivity. }
      split; [rewrite length_app; simpl; lia|].
      intros i row' Hi. apply lookup_snoc_Some in Hi
        as [[Hi Hrow]|[Hi <-]]; [exact (Hall i row' Hrow)|].
      rewrite Hlen in Hi. subst i. auto.
  - intros output HQ. exact HQ.
Qed.

(** X12. For a square matrix [main]'s loops run without a fault: [output]
    has one row for each source, which is the vector [from_vertex] returns
    for it, of [N] entries and with [0] at the source; and the lines
    printed are the table of [output], row after row. *)
Theorem driver_prints_every_source (graph : Matrix T) :
  square_matrix graph ->
  exists output,
    driver graph = Ret (output, table_of output) /\
    length output = length graph /\
    forall i, i < length graph ->
      exists row,
        output !! i = Some row /\
        run_from_vertex graph (Z.of_nat i) = Ret row /\
        length row = length graph /\ row !! i = Some num_zero.
Proof.
  intros Hg. pose proof (square_engine graph Hg) as Hsq.
  destruct (all_sources_spec (engine graph) Hsq)
    as (output & Hout & Hlen & Hall). simpl in Hlen, Hall.
  destruct (print_table_spec (engine graph) output (length graph) Hlen)
    as (lines & Hlines & ->).
  { rewrite Forall_lookup. intros i row Hrow. apply (Hall i row Hrow). }
  exists output. split; [|split; [exact Hlen|]].
  - unfold driver. rewrite engine_new. unfold bind.
    simpl in Hout. rewrite Hout, Hlines. reflexivity.
  - intros i Hi.
    destruct (lookup_lt_is_Some_2 output i) as [row Hrow]; [lia|].
    destruct (Hall i row Hrow) as (Hr & Hlr & Hz).
    exists row. split; [exact Hrow|]. split; [|auto].
    unfold run_from_vertex. rewrite engine_new, Hr. reflexivity.
Qed.
End DriverProperties.

Lemma driver_prints_every_source_witness :
  exists output,
    driver main_graph = Ret (output, table_of output) /\
    length output = length main_graph /\
    forall i, i < length main_graph ->
      exists row,
        output !! i = Some row /\
        run_from_vertex main_graph (Z.of_nat i) = Ret row /\
        length row = length main_graph /\ row !! i = Some num_zero.
Proof.
  apply (driver_prints_every_source main_graph). exact square_main_graph.
Defined.

(** The table [main] prints, as pairs of vertex and distance.  The
    entries 3 and 2 for the vertex 2 from the sources 1 and 3 are not the
    least costs (2 and 1, through the edge of weight -2 from 0 to 2): the
    vertex 2 is processed before the vertex 0. *)
Example main_output :
  main =
  let inf := S754_infinity false in
  let f := float_of_Z in
  let output :=
    [ [f 0; f (-1); f (-2); f 0];
      [f 4; f 0; f 3; f 5];
      [f 5; f 1; f 0; f 2];
      [f 3; f (-1); f 2; f 0] ]%Z in
  Ret (output, table_of output).
Proof. vm_compute. reflexivity. Qed.

(** ** The bound of the main loop *)

Section LastRound.
Context {T : Type} `{Numeric T} `{!OrderLaws T}.
Implicit Types (dist : list T) (proc : list bool) (this : Dijkstra T).

Lemma count_true_full (l : list bool) v :
  count_true l = length l -> v < length l -> l !! v = Some true.
Proof.
  intros Hc Hv. destruct (lookup_lt_is_Some_2 l v Hv) as [[] Hl];
    [exact Hl|]. destruct (count_true_all l v Hc Hl).
Qed.

(** X13. The main loop stops one round short of [N], and nothing is lost:
    a further round on the state it ends in would mark the last vertex and
    leave every distance as it is. *)
Theorem one_more_round_changes_nothing (g : Matrix T) (source : Z) :
  square_matrix g -> (0 <= source < Z.of_nat (length g))%Z ->
  exists dist proc,
    rounds source (length g - 1) (engine g) = Ret ((dist, proc), engine g) /\
    round (dist, proc) (engine g) =
      Ret ((dist, replicate (length g) true), engine g).
Proof.
  intros Hg Hsrc. pose proof (square_engine g Hg) as Hsq.
  destruct (engine_rounds g source (length g - 1) Hg Hsrc (Nat.le_refl _))
    as ([dist proc] & Hr & Hinv).
  pose proof Hinv as (Hld & Hlp & Hcnt & Hord & _). simpl in Hld, Hlp.
  destruct (round_spec (engine g) dist proc Hsq Hld Hlp Hord)
    as ([dist' proc'] & Hround & u & du & Hsel & Hdu & Hproc & Hrel).
  { apply count_true_unprocessed. lia. }
  simpl in Hproc, Hrel. subst proc'.
  destruct Hsel as (Hpu & _).
  assert (Hu : u < length g) by (apply lookup_lt_Some in Hpu; lia).
  assert (Hfull : forall v, v < length g ->
                            <[u:=true]> proc !! v = Some true).
  { intros v Hv. apply count_true_full.
    - rewrite count_true_insert by exact Hpu. rewrite length_insert. lia.
    - rewrite length_insert. lia. }
  exists dist, proc. split; [exact Hr|]. rewrite Hround.
  destruct Hrel as (Hlen & _ & Hall). simpl in Hlen.
  assert (dist' = dist) as ->.
  { apply list_eq. intros v. destruct (decide (v < length g)) as [Hv|Hv].
    2:{ rewrite !lookup_ge_None_2 by lia. reflexivity. }
    destruct (vertex_data (engine g) dist (<[u:=true]> proc) u v)
      as (dv & pv & w & Hdv & Hpv & Hw); auto.
    { rewrite length_insert. exact Hlp. }
    rewrite (Hall v pv w dv Hpv Hw Hdv), Hdv.
    assert (pv = true) as -> by (rewrite Hfull in Hpv by exact Hv; congruence).
    simpl. destruct (decide (v < length g)); reflexivity. }
  assert (<[u:=true]> proc = replicate (length g) true) as ->; [|reflexivity].
  apply list_eq. intros v. destruct (decide (v < length g)) as [Hv|Hv].
  - rewrite Hfull by exact Hv. symmetry. apply lookup_replicate_2. exact Hv.
  - rewrite !lookup_ge_None_2; [reflexivity | |].
    + rewrite length_replicate. lia.
    + rewrite length_insert. lia.
Qed.
End LastRound.

Lemma one_more_round_changes_nothing_witness :
  exists dist proc,
    rounds 0 (length main_graph - 1) (engine main_graph) =
      Ret ((dist, proc), engine main_graph) /\
    round (dist, proc) (engine main_graph) =
      Ret ((dist, replicate (length main_graph) true), engine main_graph).
Proof.
  apply (one_more_round_changes_nothing main_graph 0).
  - exact square_main_graph.
  - simpl. lia.
Defined.
